(** * keepa.py: time-series normalisation and the resilient request loop

    A shallow embedding of [formatted], [gmdate], [interpolate], the
    call builders of [KeepaAPI] and [KeepaAPI.request], followed by the
    properties of the specification that were checked against them.

    Python integers are unbounded, so they are [Z]; list indices are [nat].
    Python lists and tuples of pairs are [list (Z * Z)]. *)

From stdpp Require Import base numbers list sorting strings gmap pretty.
From Equations Require Import Equations.

Local Open Scope Z_scope.

(** ** Series decoding: [formatted] *)

(** [l[0::2]]: every second element, starting with the first.
    [l[1::2]] is [stride2 (tail l)]. *)
Fixpoint stride2 {A : Type} (l : list A) : list A :=
  match l with
  | [] => []
  | x :: l' => x :: match l' with
                    | [] => []
                    | _ :: l'' => stride2 l''
                    end
  end.

(** The element expression of the comprehension
    [[(t + 21564000)*60 for t in csv_data[0::2]]]. *)
Definition decode (t : Z) : Z := (t + 21564000) * 60.

(** [for i, timestamp in enumerate(timestamps): if timestamp > mintime: break].
    [n] is the index [enumerate] hands out next and [i] the current binding of
    the loop variable; when the iterator is exhausted [i] keeps the last value
    bound (or its initial value if the list was empty). *)
Fixpoint enumerate_scan (mintime : Z) (timestamps : list Z) (n i : nat) : nat :=
  match timestamps with
  | [] => i
  | timestamp :: rest =>
      if bool_decide (timestamp > mintime) then n
      else enumerate_scan mintime rest (S n) n
  end.

Definition formatted (csv_data : list Z) (mintime : Z) : list (Z * Z) :=
  match csv_data with
  | [] => []
  | _ :: _ =>
      let timestamps := decode <$> stride2 csv_data in
      let values := stride2 (tail csv_data) in
      let i :=
        if bool_decide (mintime ≠ 0) then
          let i := enumerate_scan mintime timestamps 0 0 in
          if bool_decide (i ≠ 0%nat) then (i - 1)%nat else 0%nat
        else 0%nat in
      zip (drop i timestamps) (drop i values)
  end.

(** ** Daily interpolation: [gmdate] and [interpolate] *)

(** A [datetime.date] is represented by its day number counted from
    1970-01-01. The code only compares dates ([==], [<=]) and adds
    [timedelta(days=1)], which are [=], [≤] and [+ 1] on day numbers, and
    [(a - b).days] is the difference of the day numbers. [datetime.date]
    covers the years 1 to 9999 only: the days from [date_min] (0001-01-01)
    to [date_max] (9999-12-31). *)
Definition date_min : Z := -719162.
Definition date_max : Z := 2932896.

(** The UTC day a timestamp in seconds falls on: [time.gmtime] reads the
    timestamp as UTC seconds, so the day is the floor of the timestamp
    divided by the 86400 seconds of a day. *)
Definition day_of (timestamp : Z) : Z := Z.div timestamp 86400.

(** [gmdate] builds [datetime.date(year, month, day)] from the UTC fields:
    [None] stands for the exception raised when the day is outside
    [datetime.date] ([ValueError], or the range error of [time.gmtime] on a
    timestamp it cannot hold). *)
Definition gmdate (timestamp : Z) : option Z :=
  if bool_decide (date_min ≤ day_of timestamp ≤ date_max)
  then Some (day_of timestamp) else None.

(** The cursor of [interpolate] into the formatted series: the sample read
    last ([date2], [value2]) and what is left in the iterator [data]. *)
Record cursor : Type := Cursor {
  date2 : Z;
  value2 : Z;
  data : list (Z * Z)
}.

(** The inner [while True] loop. [next(data)] raising [StopIteration] leaves
    [date2] and [value2] as they were; otherwise [value2] is rebound, then
    [gmdate] is called (and may raise), then the dates are compared.
    [None]: an exception left the loop. *)
Fixpoint gather (date1 : Z) (values : list Z) (c : cursor) (it : list (Z * Z))
  : option (list Z * cursor) :=
  match it with
  | [] => Some (values, Cursor (date2 c) (value2 c) [])
  | (timestamp2, v2) :: it' =>
      match gmdate timestamp2 with
      | Some d2 =>
          if bool_decide (date1 = d2)
          then gather date1 (values ++ [v2]) (Cursor d2 v2 it') it'
          else Some (values, Cursor d2 v2 it')
      | None => None
      end
  end.

(** The reducer [func] is a caller-supplied callable: [None] stands for an
    exception raised by it, which [interpolate] lets through. *)
Definition reducer : Type := list Z → option Z.

(** Python's [min] on a list of integers: [ValueError] on the empty list. *)
Definition py_min : reducer := λ values,
  match values with
  | [] => None
  | v :: vs => Some (foldl Z.min v vs)
  end.

(** The body of the outer loop up to [results.append]: the value to emit for
    [date1] and the cursor afterwards, or [None] when [gmdate] or the
    reducer raised. *)
Definition day_step (func : reducer) (date1 value1 : Z) (c : cursor)
  : option (Z * cursor) :=
  if bool_decide (date1 = date2 c) then
    match gather date1 [value2 c] c (data c) with
    | Some (values, c') =>
        match func values with
        | Some v => Some (v, c')
        | None => None
        end
    | None => None
    end
  else Some (value1, c).

(** [while date1 <= today: ...; results.append((date1, value1)); date1 += day].
    [date1 + day] raises [OverflowError] past [date_max]. The loop ends
    because [today - date1] shrinks. The result is [None] when an exception
    was raised. *)
Equations? sweep (func : reducer) (today date1 value1 : Z) (c : cursor)
    (results : list (Z * Z)) : option (list (Z * Z))
    by wf (Z.to_nat (today + 1 - date1)) lt :=
  sweep func today date1 value1 c results with decide (date1 ≤ today) := {
    | right _ := Some results
    | left _ with day_step func date1 value1 c := {
        | None := None
        | Some (v, c') with decide (date1 + 1 ≤ date_max) := {
            | left _ :=
                sweep func today (date1 + 1) v c' (results ++ [(date1, v)])
            | right _ := None } } }.
Proof. lia. Qed.

(** [today] is the value [datetime.date.today()] returned. *)
Definition interpolate (csv_data : list Z) (func : reducer) (today : Z)
  : option (list (Z * Z)) :=
  match formatted csv_data 0 with
  | [] => Some []
  | (timestamp1, value1) :: it =>
      match gmdate timestamp1 with
      | Some date1 => sweep func today date1 value1 (Cursor date1 value1 it) []
      | None => None
      end
  end.

(** The host clock: the current time in whole seconds since the epoch (UTC)
    and the offset of the host's local time from UTC in seconds.
    [datetime.date.today()] is the local date. *)
Record clock : Type := Clock {
  now : Z;
  utcoffset : Z
}.

Definition date_today (k : clock) : Z := day_of (now k + utcoffset k).

(** ** The transport: [KeepaAPI.request] *)

(** A decoded JSON body (integer numbers only: a number with a fraction is
    outside the model). *)
#[warnings="-register-all"]
Inductive json : Type :=
  | JNull
  | JBool (b : bool)
  | JInt (n : Z)
  | JString (s : string)
  | JArray (items : list json)
  | JObject (members : list (string * json)).

Inductive exn : Type :=
  | ConnectionError
  | JSONDecodeError
  | KeepaException (msg : string)
  | AssertionError (msg : string)
  | KeyError (k : string)
  | TypeError
  | ValueError
  | OverflowError.

(** What one pass through the [try] block of [request] meets: [requests.get]
    raises [ConnectionError], or a response arrives whose text [json.loads]
    rejects, or a response arrives and its text decodes to [data]. *)
Inductive reply : Type :=
  | Refused
  | Garbled (status_code : Z)
  | Answer (status_code : Z) (data : json).

(** The observable effects of [request], in order: a call of [requests.get]
    on the URL built from [path] and [query], and a call of [time.sleep]. *)
Inductive effect : Type :=
  | Get (path : string) (query : list (string * string))
  | Sleep (secs : Z).

(** [Waiting]: the script of replies ran out while [request] was still
    looping, that is, it is blocked in its next [requests.get]. *)
Inductive outcome : Type :=
  | Returned (data : json)
  | Raised (e : exn)
  | Waiting.

Definition STATUS_CODES : gmap Z string :=
  list_to_map
    [ (400, "Bad Request the request was malformed or could not successfully execute.");
      (402, "The used API key does not grant access.");
      (405, "A request parameter is out of allowed range.");
      (429, "You are out of tokens.");
      (500, "An unexpected error occurred when executing this request.") ]%string.

Definition dquote : Ascii.ascii := Ascii.ascii_of_nat 34.

(** ['Unknown status code "{}"'.format(status_code)] *)
Definition unknown_status (status_code : Z) : string :=
  ("Unknown status code " +:+ String dquote (pretty status_code +:+ String dquote EmptyString))%string.

Fixpoint assoc (k : string) (members : list (string * json)) : option json :=
  match members with
  | [] => None
  | (k', v) :: members' => if bool_decide (k = k') then Some v else assoc k members'
  end.

(** [data[k]] for a string [k]: only a dict can be subscripted by a string. *)
Definition getitem (data : json) (k : string) : exn + json :=
  match data with
  | JObject members =>
      match assoc k members with
      | Some v => inr v
      | None => inl (KeyError k)
      end
  | _ => inl TypeError
  end.

(** The largest quotient a float can hold: [x/1000] raises [OverflowError]
    when the quotient rounds beyond the largest double. *)
Definition float_max_quot : Z := 2 ^ 1024 - 2 ^ 970.

(** [math.ceil(x/1000)] for an integer [x]. Python forms the quotient as a
    correctly rounded float. As long as the ceiling of the exact quotient
    is of a size [time.sleep] accepts, the float lies strictly between the
    same two integers as the exact quotient and its ceiling is the integer
    [-((-x) // 1000)] computed here. Beyond that size the float's ceiling is
    beyond it as well, so the value computed here and the float's ceiling
    both make [time.sleep] raise [OverflowError] (see [sleep_error]).
    [True] and [False] divide as 1 and 0. *)
Definition ceil_milli (x : json) : exn + Z :=
  match x with
  | JInt n =>
      if bool_decide (1000 * float_max_quot ≤ Z.abs n) then inl OverflowError
      else inr (- Z.div (- n) 1000)
  | JBool b => inr (- Z.div (- (if b then 1 else 0)) 1000)
  | _ => inl TypeError
  end.

(** The largest number of seconds [time.sleep] takes: the time in
    nanoseconds must fit in 64 bits. *)
Definition sleep_max : Z := 9223372036.

(** The exception [time.sleep(secs)] raises on an integer, if any:
    [OverflowError] when the time does not fit, [ValueError] when it is
    negative. *)
Definition sleep_error (secs : Z) : option exn :=
  if bool_decide (secs < - sleep_max ∨ sleep_max < secs) then Some OverflowError
  else if bool_decide (secs < 0) then Some ValueError
  else None.

(** The 429 branch up to the argument of [time.sleep]: [data['refillIn']] is
    read and rounded first, then the log line reads [data['tokensLeft']]. *)
Definition refill_delay (data : json) : exn + Z :=
  match getitem data "refillIn" with
  | inl e => inl e
  | inr refillIn =>
      match ceil_milli refillIn with
      | inl e => inl e
      | inr delay =>
          match getitem data "tokensLeft" with
          | inl e => inl e
          | inr _ => inr delay
          end
      end
  end.

(** The exception the [except] clause of [request] catches for a reply
    that is not a decoded response. *)
Definition caught (failure : reply) : exn :=
  match failure with
  | Refused => ConnectionError
  | _ => JSONDecodeError
  end.

(** A transient failure: the [try] block did not reach its [break]. *)
Definition transient (r : reply) : bool :=
  match r with
  | Answer _ _ => false
  | _ => true
  end.

Definition after (pre : list effect) (r : list effect * outcome)
  : list effect * outcome := (pre ++ r.1, r.2).

(** The two nested [while True] loops of [request] as one recursion over the
    replies, one reply per [requests.get]. [counter] is the retry budget of
    the inner loop; entering the outer loop again resets it to 3. *)
Fixpoint request_loop (path : string) (query : list (string * string))
    (counter : Z) (net : list reply) : list effect * outcome :=
  match net with
  | [] => ([], Waiting)
  | Answer status_code data :: net' =>
      if bool_decide (status_code = 200) then ([Get path query], Returned data)
      else
        match STATUS_CODES !! status_code with
        | Some error =>
            if bool_decide (status_code = 429) then
              match refill_delay data with
              | inl e => ([Get path query], Raised e)
              | inr delay =>
                  match sleep_error delay with
                  | Some e => ([Get path query], Raised e)
                  | None => after [Get path query; Sleep delay]
                              (request_loop path query 3 net')
                  end
              end
            else ([Get path query], Raised (KeepaException error))
        | None =>
            ([Get path query], Raised (KeepaException (unknown_status status_code)))
        end
  | failure :: net' =>
      let counter := counter - 1 in
      if bool_decide (counter = 0) then ([Get path query], Raised (caught failure))
      else after [Get path query; Sleep 30] (request_loop path query counter net')
  end.

Definition request (path : string) (query : list (string * string))
    (net : list reply) : list effect * outcome :=
  request_loop path query 3 net.

(** ** The call builders of [KeepaAPI]

    Each builder checks its arguments, assembles the query and ends in
    [return self.request(path, query)]; a builder that raises before that
    line leaves the empty trace. Query values are kept as the strings that
    [urlencode] makes of them. [assert] statements are taken as enabled. *)

Record KeepaAPI : Type := {
  key : string;
  domain : Z
}.

(** [domain or self.domain]: [None] and [0] both fall back to the default. *)
Definition domain_or (domain_arg : option Z) (self : KeepaAPI) : Z :=
  match domain_arg with
  | Some d => if bool_decide (d = 0) then domain self else d
  | None => domain self
  end.

(** [s.split(',')] *)
Fixpoint split_comma (s : string) : list string :=
  match s with
  | EmptyString => [EmptyString]
  | String a s' =>
      if bool_decide (a = Ascii.ascii_of_nat 44) then EmptyString :: split_comma s'
      else match split_comma s' with
           | h :: t => String a h :: t
           | [] => [String a EmptyString]
           end
  end.

(** An element of a list of category ids, as [str] sees it. *)
Inductive atom : Type :=
  | AInt (n : Z)
  | AStr (s : string).

Definition str (a : atom) : string :=
  match a with
  | AInt n => pretty n
  | AStr s => s
  end.

(** The [category] argument by its Python type. *)
Inductive category_arg : Type :=
  | CatStr (s : string)
  | CatInt (n : Z)
  | CatList (ids : list atom)
  | CatOther.

(** The [if type(category) is ...] chain of [categories]: the ids to join,
    or the exception raised. *)
Definition cat_ids (category : category_arg) : exn + list string :=
  match category with
  | CatStr s =>
      if bool_decide (String.length s ≤ 10)%nat then inr (split_comma s)
      else inl (AssertionError "Error: More then 10 category ids.")
  | CatInt n => inr [pretty n]
  | CatList ids => inr (str <$> ids)
  | CatOther => inl (KeepaException "Incorrect category type.")
  end.

Definition categories (self : KeepaAPI) (category : category_arg)
    (parents : Z) (domain_arg : option Z) (net : list reply)
  : list effect * outcome :=
  match cat_ids category with
  | inl e => ([], Raised e)
  | inr ids =>
      let query :=
        [ ("key", key self);
          ("domain", pretty (domain_or domain_arg self));
          ("category", String.concat "," ids) ]%string in
      let query :=
        if bool_decide (parents ≠ 0) then query ++ [("parents"%string, pretty parents)]
        else query in
      request "/category/" query net
  end.

(** ['Incorrect "offers" range!'] *)
Definition offers_range_msg : string :=
  ("Incorrect " +:+ String dquote ("offers" +:+ String dquote " range!"))%string.

(** [asins] is a list by its type here, so the first [assert] of [products]
    holds. [if offers:] is false for [None] and for [0]. *)
Definition products (self : KeepaAPI) (asins : list string) (stats : Z)
    (update : option Z) (history : bool) (offers : option Z) (rating : bool)
    (domain_arg : option Z) (net : list reply) : list effect * outcome :=
  let query :=
    [ ("key", key self);
      ("domain", pretty (domain_or domain_arg self));
      ("asin", String.concat "," asins);
      ("history", if history then "1" else "0");
      ("rating", if rating then "1" else "0") ]%string in
  let query :=
    match update with
    | Some u => query ++ [("update"%string, pretty u)]
    | None => query
    end in
  let query :=
    if bool_decide (stats ≠ 0) then query ++ [("stats"%string, pretty stats)]
    else query in
  match offers with
  | Some n =>
      if bool_decide (n ≠ 0) then
        if bool_decide (20 ≤ n ∧ n ≤ 100)
        then request "/product" (query ++ [("offers"%string, pretty n)]) net
        else ([], Raised (AssertionError offers_range_msg))
      else request "/product" query net
  | None => request "/product" query net
  end.

Definition sellers (self : KeepaAPI) (seller_ids : list string)
    (storefront : bool) (update : option Z) (domain_arg : option Z)
    (net : list reply) : list effect * outcome :=
  if storefront && bool_decide (1 < length seller_ids)%nat then
    ([], Raised (KeepaException
      "Seller id batch requests are not allowed when requesting the storefront."))
  else
    let query :=
      [ ("key", key self);
        ("domain", pretty (domain_or domain_arg self));
        ("seller", String.concat "," seller_ids);
        ("storefront", if storefront then "1" else "0") ]%string in
    let query :=
      match update with
      | Some u => query ++ [("update"%string, pretty u)]
      | None => query
      end in
    request "/seller" query net.

(** [best_sellers]: no check of its own. [str(category)] is taken on an
    integer or a string. *)
Definition best_sellers (self : KeepaAPI) (category : atom)
    (domain_arg : option Z) (net : list reply) : list effect * outcome :=
  request "/bestsellers"
    [ ("key", key self);
      ("domain", pretty (domain_or domain_arg self));
      ("category", str category) ]%string net.

Definition token_status (self : KeepaAPI) (net : list reply)
  : list effect * outcome :=
  request "/token" [("key", key self)]%string net.

(** [int(x)] on a decoded JSON value. What [int] makes of a string is left
    to [parse] ([None]: [ValueError]); a returned Python integer is written
    [JInt]. *)
Definition py_int (parse : string → option Z) (x : json) : exn + Z :=
  match x with
  | JInt n => inr n
  | JBool b => inr (if b then 1 else 0)
  | JString s =>
      match parse s with
      | Some n => inr n
      | None => inl ValueError
      end
  | _ => inl TypeError
  end.

(** [int(self.token_status()['tokensLeft'])] *)
Definition tokens_left (parse : string → option Z) (self : KeepaAPI)
    (net : list reply) : list effect * outcome :=
  match token_status self net with
  | (tr, Returned data) =>
      match getitem data "tokensLeft" with
      | inl e => (tr, Raised e)
      | inr x =>
          match py_int parse x with
          | inl e => (tr, Raised e)
          | inr n => (tr, Returned (JInt n))
          end
      end
  | r => r
  end.

(** ** Notions used to state what [request] does *)

(** The number of calls of [requests.get] in a trace. *)
Fixpoint gets (tr : list effect) : nat :=
  match tr with
  | [] => 0%nat
  | Get _ _ :: tr' => S (gets tr')
  | Sleep _ :: tr' => gets tr'
  end.

(** A reply after which [request] may go on: a transient failure or a
    rate-limit response. *)
Definition retriable (r : reply) : Prop :=
  match r with
  | Answer status_code _ => status_code = 429
  | _ => True
  end.

(** What one reply does to the loop at budget [counter]: it ends the call
    with an outcome, or the loop sleeps and goes on with a budget. *)
Inductive verdict : Type :=
  | Stop (o : outcome)
  | Retry (secs : Z) (counter : Z).

Definition verdict_of (counter : Z) (r : reply) : verdict :=
  match r with
  | Answer status_code data =>
      if bool_decide (status_code = 200) then Stop (Returned data)
      else
        match STATUS_CODES !! status_code with
        | Some error =>
            if bool_decide (status_code = 429) then
              match refill_delay data with
              | inl e => Stop (Raised e)
              | inr delay =>
                  match sleep_error delay with
                  | Some e => Stop (Raised e)
                  | None => Retry delay 3
                  end
              end
            else Stop (Raised (KeepaException error))
        | None => Stop (Raised (KeepaException (unknown_status status_code)))
        end
  | failure =>
      if bool_decide (counter - 1 = 0) then Stop (Raised (caught failure))
      else Retry 30 (counter - 1)
  end.

(** An effect of a call builder that, if it is a get, carries the access
    key and the locale [dom] as its first two query parameters. *)
Definition keyed (self : KeepaAPI) (dom : Z) (e : effect) : Prop :=
  match e with
  | Get _ q => ∃ q', q = ("key", key self) :: ("domain", pretty dom) :: q'
  | Sleep _ => True
  end%string.

(** ** Notions used to state what [formatted] returns *)

(** The reading of a raw series as timestamp/value pairs, independent of the
    slicing done by the code. *)
Fixpoint pairs (raw : list Z) : list (Z * Z) :=
  match raw with
  | t :: v :: raw' => (t, v) :: pairs raw'
  | _ => []
  end.

Definition decode_pair (p : Z * Z) : Z * Z := ((p.1 + 21564000) * 60, p.2).

(** The index of the first element strictly above [m], if any. *)
Fixpoint first_above (m : Z) (ts : list Z) : option nat :=
  match ts with
  | [] => None
  | t :: ts' => if bool_decide (t > m) then Some 0%nat
                else S <$> first_above m ts'
  end.

(** The whole series decoded, pair by pair. *)
Definition decoded (raw : list Z) : list (Z * Z) := decode_pair <$> pairs raw.

(** The query of [token_status]: [{'key': self.key}], here with a sample key. *)
Definition token_query : list (string * string) := [("key", "k")]%string.

(** ** Notions used to state what [interpolate] returns *)

(** The values of the samples (timestamp, value) whose UTC day is [d], in
    series order. *)
Definition values_on (d : Z) (samples : list (Z * Z)) : list Z :=
  (filter (λ s, gmdate s.1 = Some d) samples).*2.


(** The daily series as the specification words it: for each day of [days]
    in turn, the reducer applied to the values of that day's samples, or the
    value held so far when the day has none. *)
Fixpoint daily (func : reducer) (samples : list (Z * Z)) (v : Z) (days : list Z)
  : option (list (Z * Z)) :=
  match days with
  | [] => Some []
  | d :: days' =>
      match values_on d samples with
      | [] => ((d, v) ::.) <$> daily func samples v days'
      | vs =>
          match func vs with
          | Some v' => ((d, v') ::.) <$> daily func samples v' days'
          | None => None
          end
      end
  end.

(** Samples in non-decreasing order of UTC day. *)
Definition ascending (samples : list (Z * Z)) : Prop :=
  StronglySorted (λ a b : Z * Z, day_of a.1 ≤ day_of b.1) samples.

(** A sample whose UTC day [datetime.date] can hold. *)
Definition dated (s : Z * Z) : Prop := is_Some (gmdate s.1).

(** The current UTC date on the host clock. *)
Definition utc_date (k : clock) : Z := day_of (now k).

(** * Properties of [formatted] *)

Section Formatted.

Implicit Types (raw ts : list Z) (m t v : Z) (i j k n : nat).

Lemma list_ind2 {A : Type} (P : list A → Prop) :
  P [] → (∀ x, P [x]) → (∀ x y l, P l → P (x :: y :: l)) → ∀ l, P l.
Proof.
  intros Hnil Hone Hstep. fix IH 1.
  intros [|x [|y l]]; [exact Hnil | apply Hone | apply Hstep, IH].
Qed.

Lemma stride2_cons2 {A : Type} (x y : A) (l : list A) :
  stride2 (x :: y :: l) = x :: stride2 l.
Proof. reflexivity. Qed.

Lemma stride2_tail_cons2 {A : Type} (x y : A) (l : list A) :
  stride2 (tail (x :: y :: l)) = y :: stride2 (tail l).
Proof. by destruct l. Qed.

(** Zipping the two slices gives the pairs, whatever the parity. *)
Lemma zip_slices raw :
  zip (decode <$> stride2 raw) (stride2 (tail raw)) = decoded raw.
Proof.
  induction raw as [| t | t v raw IH] using list_ind2; [done..|].
  rewrite stride2_cons2, stride2_tail_cons2. cbn [fmap list_fmap zip zip_with].
  unfold decoded in *. cbn [pairs fmap list_fmap]. by rewrite <- IH.
Qed.

Lemma length_pairs raw : length (pairs raw) = (length raw / 2)%nat.
Proof.
  induction raw as [| t | t v raw IH] using list_ind2; [done..|].
  cbn [pairs length]. rewrite IH.
  change (S (S (length raw))) with (1 * 2 + length raw)%nat.
  rewrite Nat.div_add_l by done. lia.
Qed.

Lemma slice_timestamps raw :
  Nat.Even (length raw) → decode <$> stride2 raw = (decoded raw).*1.
Proof.
  induction raw as [| t | t v raw IH] using list_ind2; intros Hev; [done| |].
  - destruct Hev as [[|?] ?]; simpl in *; lia.
  - rewrite stride2_cons2. unfold decoded in *. cbn [pairs fmap list_fmap].
    rewrite IH; [done|]. by apply Nat.Even_succ_succ.
Qed.

Lemma slice_values raw :
  Nat.Even (length raw) → stride2 (tail raw) = (decoded raw).*2.
Proof.
  induction raw as [| t | t v raw IH] using list_ind2; intros Hev; [done| |].
  - destruct Hev as [[|?] ?]; simpl in *; lia.
  - rewrite stride2_tail_cons2. unfold decoded in *. cbn [pairs fmap list_fmap].
    rewrite IH; [done|]. by apply Nat.Even_succ_succ.
Qed.

Lemma enumerate_scan_spec m ts n i :
  enumerate_scan m ts n i =
    match first_above m ts with
    | Some j => (n + j)%nat
    | None => match ts with [] => i | _ :: _ => (n + length ts - 1)%nat end
    end.
Proof.
  revert n i. induction ts as [|t ts IH]; intros n i; [done|].
  cbn [enumerate_scan first_above]. case_bool_decide; [simpl; lia|].
  rewrite IH. destruct (first_above m ts) as [j|]; simpl; [lia|].
  destruct ts; simpl; lia.
Qed.

Lemma first_above_is_Some m ts j t :
  ts !! j = Some t → m < t →
  (∀ i t', (i < j)%nat → ts !! i = Some t' → t' ≤ m) →
  first_above m ts = Some j.
Proof.
  revert j. induction ts as [|t0 ts IH]; intros j Hj Ht Hbelow; [done|].
  cbn [first_above]. destruct j as [|j].
  - simplify_eq/=. by rewrite bool_decide_eq_true_2 by lia.
  - rewrite bool_decide_eq_false_2.
    + rewrite (IH j); [done..|]. intros i t' ? ?. apply (Hbelow (S i)); [lia|done].
    + pose proof (Hbelow 0%nat t0 ltac:(lia) eq_refl). lia.
Qed.

Lemma first_above_is_None m ts :
  (∀ t, t ∈ ts → t ≤ m) → first_above m ts = None.
Proof.
  induction ts as [|t0 ts IH]; intros Hall; [done|].
  cbn [first_above]. rewrite bool_decide_eq_false_2.
  - rewrite IH; [done|]. intros t ?. apply Hall. by right.
  - pose proof (Hall t0 ltac:(by left)). lia.
Qed.

Lemma first_above_Some_inv m ts j :
  first_above m ts = Some j →
  (∃ t, ts !! j = Some t ∧ m < t) ∧
  (∀ i t', (i < j)%nat → ts !! i = Some t' → t' ≤ m).
Proof.
  revert j. induction ts as [|t0 ts IH]; intros j; [done|].
  cbn [first_above]. case_bool_decide as Ht0.
  - intros [= <-]. split; [exists t0; split; [done|lia]|]. intros; lia.
  - destruct (first_above m ts) as [j'|] eqn:Hfa; [|done].
    intros [= <-]. destruct (IH j' eq_refl) as [Hj' Hbelow]. split; [done|].
    intros [|i] t' Hi Hlook; simplify_eq/=; [lia|].
    apply (Hbelow i); [lia|done].
Qed.

Lemma first_above_None_inv m ts i t :
  first_above m ts = None → ts !! i = Some t → t ≤ m.
Proof.
  revert i. induction ts as [|t0 ts IH]; intros i; [done|].
  cbn [first_above]. case_bool_decide; [done|].
  destruct (first_above m ts) eqn:?; [done|]. intros _.
  destruct i as [|i]; simpl; [intros [= <-]; lia | by apply IH].
Qed.

Lemma zip_drop {A B : Type} n (l : list A) (k : list B) :
  zip (drop n l) (drop n k) = drop n (zip l k).
Proof.
  revert l k.
  induction n as [|n IH]; intros [|x l] [|y k]; simpl;
    rewrite ?zip_with_nil_r; auto.
Qed.

(** [formatted] returns a suffix of the decoded series; where it starts is
    decided by [enumerate_scan]. *)
Lemma formatted_drop raw m :
  m ≠ 0 →
  formatted raw m =
    drop (enumerate_scan m (decode <$> stride2 raw) 0 0 - 1) (decoded raw).
Proof.
  intros Hm. destruct raw as [|t raw]; [done|].
  unfold formatted. rewrite bool_decide_eq_true_2 by done.
  set (i := enumerate_scan _ _ _ _).
  assert ((if bool_decide (i ≠ 0%nat) then (i - 1)%nat else 0%nat) = (i - 1)%nat)
    as -> by (case_bool_decide; lia).
  by rewrite zip_drop, zip_slices.
Qed.

Lemma formatted_zero raw : formatted raw 0 = decoded raw.
Proof.
  destruct raw as [|t raw]; [done|].
  unfold formatted. rewrite bool_decide_eq_false_2 by (intros ?; done).
  rewrite !drop_0. apply zip_slices.
Qed.

Lemma lookup_timestamps raw i t v :
  decoded raw !! i = Some (t, v) → (decoded raw).*1 !! i = Some t.
Proof. intros H. by rewrite list_lookup_fmap, H. Qed.

Lemma lookup_timestamps_inv raw i t :
  (decoded raw).*1 !! i = Some t → ∃ v, decoded raw !! i = Some (t, v).
Proof.
  rewrite list_lookup_fmap. destruct (decoded raw !! i) as [[t' v]|]; [|done].
  intros [= <-]. by exists v.
Qed.

(** C8. Every raw timestamp [t] decodes to [(t + 21564000) * 60]; whatever
    the cut-off, [formatted] returns a suffix of the series decoded pair by
    pair with that formula; on the empty series it returns the empty
    sequence; and with cut-off 0 it returns all the pairs, decoded,
    [len(raw)/2] of them. *)
Theorem formatted_decodes_all :
  (∀ t, decode t = (t + 21564000) * 60) ∧
  (∀ raw m, ∃ i,
     formatted raw m = drop i ((λ p, ((p.1 + 21564000) * 60, p.2)) <$> pairs raw)) ∧
  (∀ m, formatted [] m = []) ∧
  (∀ raw,
     formatted raw 0 = (λ p, ((p.1 + 21564000) * 60, p.2)) <$> pairs raw ∧
     length (formatted raw 0) = (length raw / 2)%nat).
Proof.
  split_and!; [done| | done |].
  - intros raw m. destruct (decide (m = 0)) as [->|Hm].
    + exists 0%nat. by rewrite formatted_zero.
    + eexists. by apply formatted_drop.
  - intros raw. rewrite formatted_zero. split; [done|].
    unfold decoded. by rewrite length_fmap, length_pairs.
Qed.

(** C10. On an even-length series and a nonzero cut-off that no decoded
    timestamp exceeds, [formatted] returns exactly the last two decoded
    pairs when there are at least two, and the single pair when there is
    one. *)
Theorem formatted_cutoff_past_end raw m :
  Nat.Even (length raw) → m ≠ 0 →
  Forall (λ p, p.1 ≤ m) (decoded raw) →
  (∀ pre p q, decoded raw = pre ++ [p; q] → formatted raw m = [p; q]) ∧
  (∀ p, decoded raw = [p] → formatted raw m = [p]).
Proof.
  intros Hev Hm Hall. rewrite formatted_drop, slice_timestamps by done.
  rewrite enumerate_scan_spec, first_above_is_None; last first.
  { intros t [[t' v] [-> Hin]]%list_elem_of_fmap.
    by apply (proj1 (Forall_forall _ _) Hall _ Hin). }
  split.
  - intros pre p q Heq. rewrite Heq, fmap_app, length_app. simpl.
    destruct (pre.*1 ++ _) eqn:Happ; [by destruct pre|].
    apply drop_app_length'. rewrite length_fmap. lia.
  - intros p Heq. by rewrite Heq.
Qed.

Lemma formatted_cutoff_past_end_witness :
  formatted [0; 10; 1; 20; 2; 30] 1293840300
    = [(1293840060, 20); (1293840120, 30)].
Proof.
  apply (proj1 (formatted_cutoff_past_end [0; 10; 1; 20; 2; 30] 1293840300
                  (ex_intro _ 3%nat eq_refl)
                  ltac:(done)
                  ltac:(repeat constructor; discriminate))
           [(1293840000, 10)]).
  reflexivity.
Defined.

(** C7, as the code has it. With cut-off 0 the whole decoded series is
    returned. With a nonzero cut-off and [j] the first index whose decoded
    timestamp strictly exceeds it, the suffix from [j - 1] (from 0 when
    [j = 0]) is returned. When the cut-off equals the decoded timestamp of
    element [k] and element [k + 1], if there is one, lies strictly above
    the cut-off, the result starts at or before element [k]. *)
Theorem formatted_cutoff_suffix raw m :
  Nat.Even (length raw) →
  (m = 0 → formatted raw m = decoded raw) ∧
  (m ≠ 0 → ∀ j t v,
     decoded raw !! j = Some (t, v) → m < t →
     (∀ i t' v', (i < j)%nat → decoded raw !! i = Some (t', v') → t' ≤ m) →
     formatted raw m = drop (j - 1) (decoded raw)) ∧
  (∀ k v,
     decoded raw !! k = Some (m, v) →
     (∀ t' v', decoded raw !! S k = Some (t', v') → m < t') →
     ∃ s, (s ≤ k)%nat ∧ formatted raw m = drop s (decoded raw)).
Proof.
  intros Hev. split_and!.
  - intros ->. apply formatted_zero.
  - intros Hm j t v Hj Ht Hbelow.
    rewrite formatted_drop, slice_timestamps, enumerate_scan_spec by done.
    rewrite (first_above_is_Some m _ j t); [done| by eapply lookup_timestamps |done|].
    intros i t' Hi [v' Hi']%lookup_timestamps_inv. by eapply Hbelow.
  - intros k v Hk Hnext. destruct (decide (m = 0)) as [->|Hm].
    { exists 0%nat. split; [lia|]. by rewrite formatted_zero. }
    eexists. split; [|by apply formatted_drop].
    rewrite slice_timestamps, enumerate_scan_spec by done.
    destruct (first_above m _) as [j|] eqn:Hfa.
    + apply first_above_Some_inv in Hfa as [[t [Hj Ht]] Hbelow].
      destruct (decide (j ≤ S k)%nat); [lia|].
      assert (is_Some ((decoded raw).*1 !! S k)) as [t' Ht'].
      { apply lookup_lt_is_Some. apply lookup_lt_Some in Hj. lia. }
      pose proof (Hbelow (S k) t' ltac:(lia) Ht').
      apply lookup_timestamps_inv in Ht' as [v' Ht'].
      pose proof (Hnext _ _ Ht'). lia.
    + destruct ((decoded raw).*1) as [|t0 ts] eqn:Hts; [simpl; lia|].
      rewrite <- Hts in *. clear Hts.
      destruct (decide (S k < length (decoded raw).*1)%nat) as [Hlt|]; [|lia].
      apply lookup_lt_is_Some in Hlt as [t' Ht'].
      pose proof (first_above_None_inv _ _ _ _ Hfa Ht').
      apply lookup_timestamps_inv in Ht' as [v' Ht'].
      pose proof (Hnext _ _ Ht'). lia.
Qed.

Lemma formatted_cutoff_suffix_witness :
  formatted [0; 10; 1; 20; 2; 30] 1293840060
    = drop 1 (decoded [0; 10; 1; 20; 2; 30]).
Proof.
  refine (proj1 (proj2 (formatted_cutoff_suffix [0; 10; 1; 20; 2; 30] 1293840060
                          (ex_intro _ 3%nat eq_refl)))
            ltac:(done) 2%nat 1293840120 30 eq_refl ltac:(lia) _).
  intros [|[|i]] t' v' Hi Hlook; [..|lia];
    cbv in Hlook; injection Hlook as <- <-; discriminate.
Defined.

(** C7 as stated fails where the boundary timestamp is repeated: the
    cut-off equals the decoded timestamp of element 0, the first timestamp
    above it is at index 2, and the result starts at element 1. *)
Lemma formatted_boundary_skipped :
  Nat.Even (length [0; 10; 0; 20; 1; 30]) ∧
  decoded [0; 10; 0; 20; 1; 30] !! 0%nat = Some (1293840000, 10) ∧
  formatted [0; 10; 0; 20; 1; 30] 1293840000
    = [(1293840000, 20); (1293840060, 30)] ∧
  ¬ ∃ s, (s ≤ 0)%nat ∧
      formatted [0; 10; 0; 20; 1; 30] 1293840000
        = drop s (decoded [0; 10; 0; 20; 1; 30]).
Proof.
  split_and!; [by exists 3%nat | reflexivity | reflexivity |].
  intros (s & Hs & Heq). apply Nat.le_0_r in Hs as ->.
  apply (f_equal length) in Heq. vm_compute in Heq. discriminate Heq.
Qed.

End Formatted.

(** * Properties of [request] *)

Section Transport.

Variables (path : string) (query : list (string * string)).

Implicit Types (net rest : list reply) (counter status r d : Z) (data : json).

Lemma request_loop_transient counter f rest :
  transient f = true →
  request_loop path query counter (f :: rest) =
    if bool_decide (counter - 1 = 0)
    then ([Get path query], Raised (caught f))
    else after [Get path query; Sleep 30]
           (request_loop path query (counter - 1) rest).
Proof. by destruct f. Qed.

(** C1. Two transient failures followed by a 200 response: the request
    returns the decoded body after three calls and exactly two sleeps of 30
    seconds. Three transient failures in a row: the third failure is raised
    after three calls and two sleeps, whatever replies would follow, so
    there is no fourth call. *)
Theorem request_transient_retries f1 f2 :
  transient f1 = true → transient f2 = true →
  (∀ data rest,
     request path query (f1 :: f2 :: Answer 200 data :: rest) =
       ([Get path query; Sleep 30; Get path query; Sleep 30; Get path query],
        Returned data)) ∧
  (∀ f3 rest, transient f3 = true →
     request path query (f1 :: f2 :: f3 :: rest) =
       ([Get path query; Sleep 30; Get path query; Sleep 30; Get path query],
        Raised (caught f3))).
Proof.
  intros H1 H2. unfold request. split.
  - intros data rest. by rewrite !request_loop_transient by done.
  - intros f3 rest H3. by rewrite !request_loop_transient by done.
Qed.

(** A 429 restarts the budget: four transient failures in one request, two
    before and two after the rate-limit wait, still end in success. *)
Example request_budget_restarts data left :
  request path query
    [Refused; Refused;
     Answer 429 (JObject [("refillIn"%string, JInt 1500); ("tokensLeft"%string, left)]);
     Refused; Refused; Answer 200 data]
  = ([Get path query; Sleep 30; Get path query; Sleep 30; Get path query; Sleep 2;
      Get path query; Sleep 30; Get path query; Sleep 30; Get path query],
     Returned data).
Proof. reflexivity. Qed.

(** The ceiling of [r / 1000], for an [r] whose quotient a float holds. *)
Lemma ceil_milli_spec r d :
  ceil_milli (JInt r) = inr d → 1000 * (d - 1) < r ≤ 1000 * d.
Proof.
  cbn [ceil_milli]. case_bool_decide; [done|]. intros [= <-].
  pose proof (Z.div_mod (- r) 1000 ltac:(done)).
  pose proof (Z.mod_pos_bound (- r) 1000 ltac:(done)). lia.
Qed.

Lemma ceil_milli_int r :
  Z.abs r < 1000 * float_max_quot → ceil_milli (JInt r) = inr (- (- r) `div` 1000).
Proof. intros Hr. cbn [ceil_milli]. by rewrite bool_decide_eq_false_2 by lia. Qed.

Lemma float_max_quot_large : 9223372037 < float_max_quot.
Proof. by vm_compute. Qed.

(** The 429 branch of the loop, at any budget. *)
Lemma request_loop_429 counter data rest :
  request_loop path query counter (Answer 429 data :: rest) =
    match refill_delay data with
    | inl e => ([Get path query], Raised e)
    | inr delay =>
        match sleep_error delay with
        | Some e => ([Get path query], Raised e)
        | None => after [Get path query; Sleep delay] (request path query rest)
        end
    end.
Proof.
  cbn [request_loop]. rewrite bool_decide_eq_false_2 by done.
  change (STATUS_CODES !! 429) with (Some "You are out of tokens."%string).
  cbn match. by rewrite bool_decide_eq_true_2 by done.
Qed.

(** C2, as the code has it. A 429 response whose body is an object with a
    [tokensLeft] member and an integer [refillIn] above -1000 and at most
    9223372036000, so that the ceiling [d] of [refillIn / 1000] is a number
    of seconds from 0 to the 9223372036 that [time.sleep] takes, makes the
    transport sleep [d] seconds and start the request again with a fresh
    budget of three attempts, whatever the budget was; any number [n] of
    such responses in a row is waited out, and the 200 response that follows
    is returned. A 429 response whose body is not an object, or has no
    [refillIn], or has an integer [refillIn] and no [tokensLeft], ends the
    request after that one get, without a sleep, in [TypeError] or
    [KeyError]. *)
Theorem request_rate_limited data :
  (∀ r left,
     getitem data "refillIn" = inr (JInt r) →
     getitem data "tokensLeft" = inr left →
     -1000 < r ≤ 1000 * 9223372036 →
     ∃ d, 1000 * (d - 1) < r ≤ 1000 * d ∧
       (∀ counter rest,
          request_loop path query counter (Answer 429 data :: rest) =
            after [Get path query; Sleep d] (request path query rest)) ∧
       (∀ n body rest,
          request path query (replicate n (Answer 429 data) ++ Answer 200 body :: rest) =
            (mjoin (replicate n [Get path query; Sleep d]) ++ [Get path query],
             Returned body))) ∧
  ((∀ members, data ≠ JObject members) →
   ∀ counter rest,
     request_loop path query counter (Answer 429 data :: rest) =
       ([Get path query], Raised TypeError)) ∧
  (∀ members,
     data = JObject members → assoc "refillIn" members = None →
     ∀ counter rest,
       request_loop path query counter (Answer 429 data :: rest) =
         ([Get path query], Raised (KeyError "refillIn"))) ∧
  (∀ members r,
     data = JObject members →
     assoc "refillIn" members = Some (JInt r) →
     Z.abs r < 1000 * (2 ^ 1024 - 2 ^ 970) →
     assoc "tokensLeft" members = None →
     ∀ counter rest,
       request_loop path query counter (Answer 429 data :: rest) =
         ([Get path query], Raised (KeyError "tokensLeft"))).
Proof.
  split_and!.
  - intros r left Hrefill Hleft Hr.
    pose proof float_max_quot_large.
    pose proof (ceil_milli_int r ltac:(lia)) as Hceil.
    set (d := - (- r) `div` 1000) in *.
    pose proof (ceil_milli_spec _ _ Hceil) as Hd.
    assert (∀ counter rest,
      request_loop path query counter (Answer 429 data :: rest) =
        after [Get path query; Sleep d] (request path query rest)) as Hstep.
    { intros counter rest. rewrite request_loop_429.
      unfold refill_delay. rewrite Hrefill, Hceil, Hleft.
      unfold sleep_error, sleep_max.
      rewrite bool_decide_eq_false_2 by lia.
      by rewrite bool_decide_eq_false_2 by lia. }
    exists d. split_and!; [lia..|done|].
    intros n body rest. induction n as [|n IH].
    + simpl. unfold request. cbn [request_loop].
      by rewrite bool_decide_eq_true_2 by done.
    + cbn [replicate app]. unfold request at 1. rewrite Hstep, IH. done.
  - intros Hobj counter rest. rewrite request_loop_429.
    unfold refill_delay, getitem. destruct data; try done. by destruct (Hobj members).
  - intros members -> Hnone counter rest. rewrite request_loop_429.
    unfold refill_delay, getitem. by rewrite Hnone.
  - intros members r -> Hrefill Hr Hnone counter rest. rewrite request_loop_429.
    unfold refill_delay, getitem. rewrite Hrefill, Hnone.
    by rewrite ceil_milli_int.
Qed.

(** C3. A decoded response whose status is neither 200 nor 429 ends the
    request at once, whatever the retry budget and whatever replies would
    follow: one call, no sleep, and a [KeepaException] whose message is the
    text of the status table for 400, 402, 405 and 500 and
    [Unknown status code "<status>"] for every other status. *)
Theorem request_fatal_status counter status data rest :
  status ≠ 200 → status ≠ 429 →
  ∃ msg,
    request_loop path query counter (Answer status data :: rest) =
      ([Get path query], Raised (KeepaException msg)) ∧
    (status = 400 → msg =
       "Bad Request the request was malformed or could not successfully execute."%string) ∧
    (status = 402 → msg = "The used API key does not grant access."%string) ∧
    (status = 405 → msg = "A request parameter is out of allowed range."%string) ∧
    (status = 500 → msg =
       "An unexpected error occurred when executing this request."%string) ∧
    (status ∉ [400; 402; 405; 500] → msg =
       ("Unknown status code " +:+ String dquote (pretty status +:+ String dquote EmptyString))%string).
Proof.
  intros H200 H429. cbn [request_loop].
  rewrite bool_decide_eq_false_2 by done.
  destruct (decide (status ∈ [400; 402; 405; 500])) as [Hin|Hout].
  - assert (∀ P : Prop, status ∉ [400; 402; 405; 500] → P) as Habsurd by done.
    rewrite !elem_of_cons, elem_of_nil in Hin.
    destruct Hin as [-> | [-> | [-> | [-> | []]]]];
      (eexists; split; [reflexivity|]; split_and!; first [done | apply Habsurd]).
  - pose proof Hout as Hne. rewrite !not_elem_of_cons in Hne.
    destruct Hne as (? & ? & ? & ? & _).
    assert (STATUS_CODES !! status = None) as ->.
    { unfold STATUS_CODES. cbn [list_to_map foldr fst snd].
      by rewrite !lookup_insert_ne, lookup_empty by done. }
    eexists. split; [reflexivity|]. split_and!; done.
Qed.

End Transport.

Lemma request_transient_retries_witness :
  request "/token" token_query [Refused; Garbled 200; Answer 200 JNull] =
    ([Get "/token" token_query; Sleep 30; Get "/token" token_query; Sleep 30; Get "/token" token_query],
     Returned JNull)
  ∧ request "/token" token_query [Garbled 502; Refused; Refused; Answer 200 JNull] =
    ([Get "/token" token_query; Sleep 30; Get "/token" token_query; Sleep 30; Get "/token" token_query],
     Raised ConnectionError).
Proof.
  split.
  - exact (proj1 (request_transient_retries "/token" token_query Refused (Garbled 200) eq_refl eq_refl)
             JNull []).
  - exact (proj2 (request_transient_retries "/token" token_query (Garbled 502) Refused eq_refl eq_refl)
             Refused [Answer 200 JNull] eq_refl).
Defined.

Lemma request_rate_limited_witness :
  request "/token" token_query
    [Answer 429 (JObject [("refillIn"%string, JInt 1500); ("tokensLeft"%string, JInt 0)]);
     Answer 200 JNull]
  = ([Get "/token" token_query; Sleep 2; Get "/token" token_query], Returned JNull).
Proof.
  destruct (proj1 (request_rate_limited "/token" token_query
              (JObject [("refillIn"%string, JInt 1500); ("tokensLeft"%string, JInt 0)]))
              1500 (JInt 0) eq_refl eq_refl ltac:(done))
    as (d & Hd & _ & Hloop).
  assert (d = 2) as -> by lia. exact (Hloop 1%nat JNull []).
Defined.

(** C2 as stated fails on a 429 response whose body carries [refillIn] but
    no [tokensLeft]: the log line raises [KeyError] before any sleep, and the
    caller gets that failure. *)
Lemma request_429_without_tokensLeft :
  request "/token" token_query
    [Answer 429 (JObject [("refillIn"%string, JInt 1500)]); Answer 200 JNull]
  = ([Get "/token" token_query], Raised (KeyError "tokensLeft")).
Proof. reflexivity. Qed.

Lemma request_fatal_status_witness :
  request "/token" token_query [Answer 402 JNull; Answer 200 JNull]
  = ([Get "/token" token_query], Raised (KeepaException "The used API key does not grant access.")).
Proof.
  destruct (request_fatal_status "/token" token_query 3 402 JNull [Answer 200 JNull]
              ltac:(done) ltac:(done)) as (msg & Hrun & _ & Hmsg & _).
  rewrite (Hmsg eq_refl) in Hrun. exact Hrun.
Defined.

(** * Argument checks of the call builders *)

Section Builders.

Variable self : KeepaAPI.

Implicit Types (net : list reply) (ids : list atom) (n : Z).

(** A list of category ids is never counted: the call reaches [request]
    whatever its length. *)
Lemma categories_list_reaches_request ids parents domain_arg net :
  ∃ q, categories self (CatList ids) parents domain_arg net
         = request "/category/" q net.
Proof. unfold categories. simpl. by eexists. Qed.

(** A string of category ids is checked by its number of characters. *)
Lemma categories_str_checks_characters s parents domain_arg net :
  (10 < String.length s)%nat →
  categories self (CatStr s) parents domain_arg net
    = ([], Raised (AssertionError "Error: More then 10 category ids.")).
Proof.
  intros Hlen. unfold categories, cat_ids.
  by rewrite bool_decide_eq_false_2 by lia.
Qed.

(** A nonzero [offers] outside 20..100 stops [products] before the
    transport is reached. *)
Lemma products_offers_checked asins stats update history n rating domain_arg net :
  n ≠ 0 → ¬ (20 ≤ n ≤ 100) →
  products self asins stats update history (Some n) rating domain_arg net
    = ([], Raised (AssertionError offers_range_msg)).
Proof.
  intros Hn Hrange. unfold products.
  rewrite bool_decide_eq_true_2 by done.
  by rewrite bool_decide_eq_false_2 by done.
Qed.

(** A storefront request for more than one seller stops [sellers] before
    the transport is reached. *)
Lemma sellers_storefront_checked seller_ids update domain_arg net :
  (1 < length seller_ids)%nat →
  sellers self seller_ids true update domain_arg net
    = ([], Raised (KeepaException
        "Seller id batch requests are not allowed when requesting the storefront.")).
Proof.
  intros Hlen. unfold sellers. by rewrite bool_decide_eq_true_2 by done.
Qed.

(** C9, the code at a call with eleven category ids given as a list: no
    check is made and the network call is issued with all eleven ids. *)
Theorem categories_eleven_ids_unchecked body :
  categories self
    (CatList [AInt 1; AInt 2; AInt 3; AInt 4; AInt 5; AInt 6; AInt 7; AInt 8;
              AInt 9; AInt 10; AInt 11]) 0 None [Answer 200 body]
  = ([Get "/category/"
        [("key", key self); ("domain", pretty (domain self));
         ("category", "1,2,3,4,5,6,7,8,9,10,11")]%string],
     Returned body).
Proof. reflexivity. Qed.

End Builders.

(** Three ids in a string of eleven characters are refused. *)
Example categories_three_ids_refused :
  categories {| key := "k"; domain := 1 |} (CatStr "100,200,300") 0 None
    [Answer 200 JNull]
  = ([], Raised (AssertionError "Error: More then 10 category ids.")).
Proof. reflexivity. Qed.

(** * Properties of [interpolate] *)

Section Interpolate.

Variables (func : reducer) (today : Z).

Implicit Types (d v : Z) (c : cursor) (acc res it samples : list (Z * Z)).

Lemma gmdate_Some ts d :
  gmdate ts = Some d ↔ d = day_of ts ∧ date_min ≤ d ≤ date_max.
Proof.
  unfold gmdate. case_bool_decide as Hr; split.
  - by intros [= <-].
  - by intros [-> _].
  - done.
  - intros [-> ?]. by destruct Hr.
Qed.

Lemma gmdate_dated s : dated s → gmdate s.1 = Some (day_of s.1).
Proof. intros [d Hd]. pose proof Hd as [-> _]%gmdate_Some. done. Qed.

Lemma gmdate_dated_pair ts v : dated (ts, v) → gmdate ts = Some (day_of ts).
Proof. apply (gmdate_dated (ts, v)). Qed.

Lemma gmdate_other ts d : day_of ts ≠ d → gmdate ts ≠ Some d.
Proof. intros Hne [-> _]%gmdate_Some. done. Qed.

Lemma sweep_body d v c acc :
  sweep func today d v c acc =
    if decide (d ≤ today) then
      match day_step func d v c with
      | Some (v', c') =>
          if decide (d + 1 ≤ date_max)
          then sweep func today (d + 1) v' c' (acc ++ [(d, v')])
          else None
      | None => None
      end
    else Some acc.
Proof.
  simp sweep. destruct (decide (d ≤ today)); simpl; [|done].
  destruct (day_step func d v c) as [[v' c']|]; simpl; [|done].
  by destruct (decide (d + 1 ≤ date_max)).
Qed.

(** The accumulator only ever grows at its end. *)
Lemma sweep_acc d v c acc :
  sweep func today d v c acc = (acc ++.) <$> sweep func today d v c [].
Proof.
  remember (Z.to_nat (today + 1 - d)) as n eqn:Hn.
  revert d v c acc Hn. induction n as [n IH] using lt_wf_ind. intros d v c acc ->.
  rewrite (sweep_body d v c acc), (sweep_body d v c []).
  destruct (decide (d ≤ today)); simpl; [|by rewrite app_nil_r].
  destruct (day_step func d v c) as [[v' c']|]; [|done].
  destruct (decide (d + 1 ≤ date_max)); [|done].
  rewrite (IH (Z.to_nat (today + 1 - (d + 1))) ltac:(lia) _ v' c' (acc ++ _) eq_refl).
  rewrite (IH (Z.to_nat (today + 1 - (d + 1))) ltac:(lia) _ v' c' [_] eq_refl).
  destruct (sweep func today (d + 1) v' c' []); simpl; [|done].
  by rewrite <- app_assoc.
Qed.

Lemma sweep_done d v c : today < d → sweep func today d v c [] = Some [].
Proof. intros. rewrite sweep_body. destruct (decide (d ≤ today)); [lia|done]. Qed.

Lemma sweep_cons d v c :
  d ≤ today →
  sweep func today d v c [] =
    match day_step func d v c with
    | Some (v', c') =>
        if decide (d + 1 ≤ date_max)
        then ((d, v') ::.) <$> sweep func today (d + 1) v' c' []
        else None
    | None => None
    end.
Proof.
  intros. rewrite sweep_body. destruct (decide (d ≤ today)); [|lia].
  destruct (day_step func d v c) as [[v' c']|]; [|done].
  destruct (decide (d + 1 ≤ date_max)); [|done].
  by rewrite sweep_acc.
Qed.

(** Induction over the days that are left until [today]. *)
Lemma days_ind (P : Z → Prop) :
  (∀ d, (d ≤ today → P (d + 1)) → P d) → ∀ d, P d.
Proof.
  intros Hstep d. remember (Z.to_nat (today + 1 - d)) as n eqn:Hn.
  revert d Hn. induction n as [n IH] using lt_wf_ind. intros d ->.
  apply Hstep. intros Hle.
  apply (IH (Z.to_nat (today + 1 - (d + 1)))); [lia|done].
Qed.

(** What the inner loop does to the iterator when it ends without an
    exception: it consumes the longest prefix [pre] of samples dated [d]
    and, if a sample is left, that one too, which becomes the cursor. *)
Lemma gather_split d it : ∀ vals c vs c',
  gather d vals c it = Some (vs, c') →
  ∃ pre post,
    it = pre ++ post ∧
    Forall (λ s, gmdate s.1 = Some d) pre ∧
    vs = vals ++ pre.*2 ∧
    ((post = [] ∧ data c' = [] ∧
      date2 c' = match pre with [] => date2 c | _ => d end)
     ∨ (∃ ts, post = (ts, value2 c') :: data c' ∧
              gmdate ts = Some (date2 c') ∧ date2 c' ≠ d)).
Proof.
  induction it as [|[ts v2] it IH]; intros vals c vs c'.
  - intros [= <- <-]. exists [], []. simpl. rewrite app_nil_r. split_and!; auto.
  - cbn [gather]. destruct (gmdate ts) as [d2|] eqn:Hts; [|done].
    case_bool_decide as Hd.
    + intros Hg. subst d2.
      destruct (IH _ _ _ _ Hg) as (pre & post & -> & Hpre & -> & Hcur).
      exists ((ts, v2) :: pre), post. split_and!; [done|by constructor| |].
      * cbn [fmap list_fmap snd]. by rewrite <- app_assoc.
      * destruct Hcur as [(-> & Hdata & Hdate)|Hlive]; [left|by right].
        split_and!; [done..|]. rewrite Hdate. by destruct pre.
    + intros [= <- <-]. exists [], ((ts, v2) :: it). simpl. rewrite app_nil_r.
      split_and!; [done..|]. right. exists ts. split_and!; [done..|].
      intros ?. by apply Hd.
Qed.

Lemma gather_nonempty d vals c it vs c' :
  gather d vals c it = Some (vs, c') → vals ≠ [] → vs ≠ [].
Proof.
  intros (pre & post & _ & _ & -> & _)%gather_split Hne. by destruct vals.
Qed.

(** The inner loop raises nothing on samples that all have a date. *)
Lemma gather_dated d it : ∀ vals c,
  Forall dated it → is_Some (gather d vals c it).
Proof.
  induction it as [|[ts v2] it IH]; intros vals c Hit; [by eexists|].
  apply Forall_cons in Hit as [Hts Hit]. cbn [gather].
  pose proof (gmdate_dated _ Hts) as Hg. simpl in Hg. rewrite Hg.
  case_bool_decide; [by apply IH|by eexists].
Qed.

(** What the inner loop leaves in the cursor comes from the cursor it was
    given or from the iterator. *)
Lemma gather_cursor d it : ∀ vals c vs c',
  gather d vals c it = Some (vs, c') →
  (value2 c' = value2 c ∨ value2 c' ∈ it.*2) ∧ data c' `suffix_of` it.
Proof.
  induction it as [|[ts v2] it IH]; intros vals c vs c'.
  - intros [= <- <-]. by split; [left|].
  - cbn [gather]. destruct (gmdate ts) as [d2|]; [|done]. case_bool_decide.
    + intros Hg. destruct (IH _ _ _ _ Hg) as [Hv Hd].
      split; [|by apply suffix_cons_r]. right. simpl in Hv.
      destruct Hv as [->|Hv]; [by left|by right].
    + intros [= <- <-]. simpl. split; [right; by left|by apply suffix_cons_r].
Qed.

Lemma suffix_Forall {A : Type} (P : A → Prop) (l k : list A) :
  l `suffix_of` k → Forall P k → Forall P l.
Proof. intros [pre ->] [_ ?]%Forall_app. done. Qed.

(** With a reducer that accepts every non-empty list, samples that all have
    a date and a [today] before the last date, the sweep returns. *)
Lemma sweep_total :
  (∀ vs, vs ≠ [] → is_Some (func vs)) →
  today < date_max →
  ∀ d v c, Forall dated (data c) → is_Some (sweep func today d v c []).
Proof.
  intros Hfunc Hmax d. induction d as [d IH] using days_ind. intros v c Hdata.
  destruct (decide (d ≤ today)) as [Hle|Hgt]; [|by rewrite sweep_done by lia].
  rewrite sweep_cons by done. unfold day_step.
  destruct (decide (d + 1 ≤ date_max)); [|lia]. case_bool_decide.
  - destruct (gather_dated d (data c) [value2 c] c Hdata) as [[vs c'] Hg].
    rewrite Hg. destruct (Hfunc vs) as [v' ->].
    { by eapply gather_nonempty. }
    destruct (IH Hle v' c') as [res ->]; [|by eexists].
    eapply suffix_Forall; [|done]. by eapply gather_cursor.
  - destruct (IH Hle v c Hdata) as [res ->]. by eexists.
Qed.

Lemma seqZ_days d :
  d ≤ today → seqZ d (today + 1 - d) = d :: seqZ (d + 1) (today + 1 - (d + 1)).
Proof.
  intros. rewrite seqZ_cons by lia. f_equal. f_equal; lia.
Qed.

(** The days emitted are the days from [d] through [today], one entry each. *)
Lemma sweep_dates d : ∀ v c res,
  sweep func today d v c [] = Some res → res.*1 = seqZ d (today + 1 - d).
Proof.
  induction d as [d IH] using days_ind. intros v c res.
  destruct (decide (d ≤ today)) as [Hle|Hgt].
  - rewrite sweep_cons, seqZ_days by done.
    destruct (day_step func d v c) as [[v' c']|]; [|done].
    destruct (decide (d + 1 ≤ date_max)); [|done].
    destruct (sweep func today (d + 1) v' c' []) as [res'|] eqn:Hrest; [|done].
    intros [= <-]. cbn [fmap list_fmap fst]. f_equal. by eapply IH.
  - rewrite sweep_done, seqZ_nil by lia. by intros [= <-].
Qed.




End Interpolate.

Section InterpolateDaily.

Variables (func : reducer) (today : Z).

Implicit Types (d v : Z) (c : cursor) (acc res it samples : list (Z * Z)).

Lemma values_on_cons d s samples :
  values_on d (s :: samples) =
    if decide (gmdate s.1 = Some d) then s.2 :: values_on d samples
    else values_on d samples.
Proof. unfold values_on. rewrite filter_cons. by case_decide. Qed.

Lemma values_on_app d pre post :
  values_on d (pre ++ post) = values_on d pre ++ values_on d post.
Proof. unfold values_on. by rewrite filter_app, fmap_app. Qed.

Lemma values_on_same d pre :
  Forall (λ s, gmdate s.1 = Some d) pre → values_on d pre = pre.*2.
Proof.
  induction 1 as [|s pre Hs _ IH]; [done|].
  rewrite values_on_cons, decide_True by done. by rewrite IH.
Qed.

Lemma values_on_other d samples :
  Forall (λ s, gmdate s.1 ≠ Some d) samples → values_on d samples = [].
Proof.
  induction 1 as [|s pre Hs _ IH]; [done|].
  by rewrite values_on_cons, decide_False.
Qed.

Lemma values_on_inv d samples :
  values_on d samples ≠ [] → ∃ s, s ∈ samples ∧ gmdate s.1 = Some d.
Proof.
  intros Hne.
  destruct (filter (λ s, gmdate s.1 = Some d) samples) as [|s l] eqn:Hf.
  - unfold values_on in Hne. by rewrite Hf in Hne.
  - assert (s ∈ filter (λ s, gmdate s.1 = Some d) samples) as Hs
      by (rewrite Hf; by left).
    apply list_elem_of_filter in Hs as [? ?]. by exists s.
Qed.

Lemma daily_ext samples samples' days : ∀ v,
  (∀ d, d ∈ days → values_on d samples = values_on d samples') →
  daily func samples v days = daily func samples' v days.
Proof.
  induction days as [|d days IH]; intros v Hext; [done|].
  cbn [daily]. rewrite <- (Hext d) by by left.
  destruct (values_on d samples); [|destruct (func _); [|done]];
    (rewrite IH; [done|]; intros d' ?; apply Hext; by right).
Qed.

Lemma daily_hold samples days v :
  (∀ d, d ∈ days → values_on d samples = []) →
  daily func samples v days = Some ((λ d, (d, v)) <$> days).
Proof.
  induction days as [|d days IH]; intros Hnone; [done|].
  cbn [daily]. rewrite (Hnone d) by by left.
  rewrite IH; [done|]. intros d' ?. apply Hnone. by right.
Qed.

(** While the cursor's date is not among the days left, the value is held;
    to the end, when [today] is before the last date. *)
Lemma sweep_inert d : ∀ v c,
  today < date_max →
  date2 c < d ∨ today < date2 c →
  sweep func today d v c [] = Some ((λ d', (d', v)) <$> seqZ d (today + 1 - d)).
Proof.
  induction d as [d IH] using (days_ind today). intros v c Hmax Hc.
  destruct (decide (d ≤ today)) as [Hle|Hgt];
    [|by rewrite sweep_done, seqZ_nil by lia].
  rewrite sweep_cons, seqZ_days by done. unfold day_step.
  rewrite bool_decide_eq_false_2 by lia.
  destruct (decide (d + 1 ≤ date_max)); [|lia].
  by rewrite IH by (done || lia).
Qed.

(** On a series of dated samples in non-decreasing order the sweep
    computes [daily]. *)
Lemma sweep_daily d : ∀ v c ts2,
  today < date_max →
  gmdate ts2 = Some (date2 c) → d ≤ date2 c →
  ascending ((ts2, value2 c) :: data c) →
  Forall dated (data c) →
  sweep func today d v c [] =
    daily func ((ts2, value2 c) :: data c) v (seqZ d (today + 1 - d)).
Proof.
  induction d as [d IH] using (days_ind today).
  intros v c ts2 Hmax Hts2 Hd Hasc Hdated.
  destruct (decide (d ≤ today)) as [Hle|Hgt];
    [|by rewrite sweep_done, seqZ_nil by lia].
  rewrite sweep_cons, seqZ_days by done. cbn [daily]. unfold day_step.
  destruct (decide (d + 1 ≤ date_max)); [|lia].
  pose proof Hasc as [Hhead Hsorted]%StronglySorted_cons. simpl in Hhead.
  pose proof Hts2 as [Hday _]%gmdate_Some. rewrite <- Hday in Hhead.
  case_bool_decide as Hsame.
  - destruct (gather_dated d (data c) [value2 c] c Hdated) as [[vs c'] Hg].
    rewrite Hg.
    destruct (gather_split _ _ _ _ _ _ Hg)
      as (pre & post & Hit & Hpre & Hvals & Hcur).
    rewrite Hit in Hhead, Hsorted, Hdated.
    apply Forall_app in Hhead as [_ Hpost].
    apply Forall_app in Hdated as [_ Hdpost].
    apply StronglySorted_app_1_r in Hsorted.
    assert (values_on d post = [] ∧
            (post = [] ∧ date2 c' = d ∨
             ∃ ts, post = (ts, value2 c') :: data c' ∧
                   gmdate ts = Some (date2 c') ∧ d < date2 c')) as [Hnone Hcur'].
    { destruct Hcur as [(-> & _ & Hdate)|(ts & -> & Hts & Hne)].
      - split; [done|]. left. split; [done|]. rewrite Hdate. by destruct pre.
      - pose proof Hsorted as [Hrest _]%StronglySorted_cons.
        pose proof Hpost as [Hfirst _]%Forall_cons. simpl in Hfirst, Hrest.
        pose proof Hts as [Htsday _]%gmdate_Some.
        split; [|right; exists ts; split_and!; [done..|lia]].
        apply values_on_other. constructor; [apply gmdate_other; simpl; lia|].
        eapply Forall_impl; [exact Hrest|]. simpl. intros s ?.
        apply gmdate_other. lia. }
    assert (values_on d ((ts2, value2 c) :: data c) = vs) as ->.
    { rewrite values_on_cons, decide_True by (simpl; by rewrite Hts2, Hsame).
      rewrite Hit, values_on_app, Hnone, app_nil_r, values_on_same by done.
      by rewrite Hvals. }
    rewrite Hvals. cbn [app]. destruct (func _) as [v'|]; [|done].
    f_equal.
    assert (∀ d', d' ∈ seqZ (d + 1) (today + 1 - (d + 1)) →
              values_on d' ((ts2, value2 c) :: data c) = values_on d' post)
      as Hlater.
    { intros d' [? _]%elem_of_seqZ.
      rewrite values_on_cons, decide_False
        by (simpl; rewrite Hts2; intros [= ?]; lia).
      rewrite Hit, values_on_app, (values_on_other d' pre); [done|].
      eapply Forall_impl; [exact Hpre|]. simpl. intros s -> [= ?]. lia. }
    destruct Hcur' as [[-> Hdate]|(ts & -> & Hts & Hahead)].
    + rewrite sweep_inert by (done || lia). symmetry. apply daily_hold.
      intros d' Hd'. rewrite Hlater by done. done.
    + apply Forall_cons in Hdpost as [_ Hdrest].
      rewrite (IH Hle v' c' ts) by (done || lia).
      symmetry. by apply daily_ext.
  - assert (values_on d ((ts2, value2 c) :: data c) = []) as ->.
    { apply values_on_other. constructor; [apply gmdate_other; simpl; lia|].
      eapply Forall_impl; [exact Hhead|]. simpl. intros s ?.
      apply gmdate_other. lia. }
    f_equal. apply IH; [done..|lia|done|done].
Qed.

(** What [daily] puts on a day that has samples. *)
Lemma daily_reduced samples days : ∀ v res d,
  daily func samples v days = Some res →
  d ∈ days → values_on d samples ≠ [] →
  ∃ v', func (values_on d samples) = Some v' ∧ (d, v') ∈ res.
Proof.
  induction days as [|d0 days IH]; intros v res d Hres Hd Hne;
    [by apply elem_of_nil in Hd|].
  cbn [daily] in Hres.
  assert (∀ v1 res', daily func samples v1 days = Some res' →
            d ∈ days → ∃ v', func (values_on d samples) = Some v' ∧ (d, v') ∈ res')
    as Htail by (intros; by eapply IH).
  apply elem_of_cons in Hd as [->|Hd].
  - destruct (values_on d0 samples) as [|x vs] eqn:Hvs; [done|].
    destruct (func (x :: vs)) as [v'|]; [|done].
    destruct (daily func samples v' days) as [res'|]; [|done].
    injection Hres as <-. exists v'. split; [done|by left].
  - destruct (values_on d0 samples) as [|x vs].
    + destruct (daily func samples v days) as [res'|] eqn:Hrest; [|done].
      injection Hres as <-. destruct (Htail _ _ Hrest Hd) as (v' & ? & ?).
      exists v'. split; [done|by right].
    + destruct (func (x :: vs)) as [v1|]; [|done].
      destruct (daily func samples v1 days) as [res'|] eqn:Hrest; [|done].
      injection Hres as <-. destruct (Htail _ _ Hrest Hd) as (v' & ? & ?).
      exists v'. split; [done|by right].
Qed.

Lemma ascending_decoded (l : list (Z * Z)) :
  StronglySorted Z.le l.*1 → ascending (decode_pair <$> l).
Proof.
  unfold ascending. induction l as [|p l IH]; [constructor|].
  cbn [fmap list_fmap]. rewrite !StronglySorted_cons, !Forall_fmap.
  intros [Hhead Hrest]. split; [|by apply IH].
  eapply Forall_impl; [exact Hhead|]. simpl. intros q Hq.
  apply Z.div_le_mono; lia.
Qed.

Lemma interpolate_sweep t v rest :
  interpolate (t :: v :: rest) func today =
    match gmdate (decode t) with
    | Some date1 =>
        sweep func today date1 v (Cursor date1 v (decoded rest)) []
    | None => None
    end.
Proof.
  unfold interpolate. rewrite formatted_zero. reflexivity.
Qed.


(** On a series of dated samples whose raw timestamps do not decrease, with
    [today] before 9999-12-31, [interpolate] is the day-by-day reading
    [daily] over the days from the first sample through [today]. *)
Corollary interpolate_daily t v rest :
  Sorted Z.le (pairs (t :: v :: rest)).*1 →
  Forall dated (decoded (t :: v :: rest)) →
  today < date_max →
  interpolate (t :: v :: rest) func today =
    daily func (decoded (t :: v :: rest)) v
      (seqZ (day_of (decode t)) (today + 1 - day_of (decode t))).
Proof.
  intros Hsorted Hdated Hmax.
  apply Sorted_StronglySorted, ascending_decoded in Hsorted; [|apply _].
  apply Forall_cons in Hdated as [Hd1 Hit].
  assert (gmdate (decode t) = Some (day_of (decode t))) as Hg
    by exact (gmdate_dated_pair (decode t) v Hd1).
  rewrite interpolate_sweep, Hg.
  by rewrite (sweep_daily _ v (Cursor (day_of (decode t)) v (decoded rest)) (decode t)).
Qed.

End InterpolateDaily.

(** C4, as the code has it. On the empty series [interpolate] returns the
    empty sequence. On a series of at least one pair whose samples all have
    a date that [datetime.date] holds, with a reducer that accepts every
    non-empty list, at a moment when the host's local date is the UTC date
    and that date is before 9999-12-31, it returns one entry per day from
    the UTC day of the first sample through the current UTC date, in order:
    as many as [(today - first).days + 1] when the first sample is not dated
    after that date, and none otherwise. *)
Theorem interpolate_days func k t v rest :
  (∀ vs, vs ≠ [] → is_Some (func vs)) →
  Forall dated (decoded (t :: v :: rest)) →
  date_today k = utc_date k →
  utc_date k < date_max →
  interpolate [] func (date_today k) = Some [] ∧
  ∃ results,
    interpolate (t :: v :: rest) func (date_today k) = Some results ∧
    results.*1 = seqZ (day_of ((t + 21564000) * 60))
                      (utc_date k + 1 - day_of ((t + 21564000) * 60)) ∧
    Z.of_nat (length results)
      = Z.max 0 (utc_date k - day_of ((t + 21564000) * 60) + 1).
Proof.
  intros Hfunc Hdated -> Hmax. split; [done|].
  apply Forall_cons in Hdated as [Hd1 Hit].
  assert (gmdate (decode t) = Some (day_of (decode t))) as Hg
    by exact (gmdate_dated_pair (decode t) v Hd1).
  rewrite interpolate_sweep, Hg.
  destruct (sweep_total func (utc_date k) Hfunc Hmax (day_of (decode t)) v
              (Cursor (day_of (decode t)) v (decoded rest)) Hit) as [res Hres].
  exists res. split; [done|].
  pose proof (sweep_dates _ _ _ _ _ _ Hres) as Hdates. split; [done|].
  rewrite <- (length_fmap fst), Hdates, length_seqZ. unfold decode. lia.
Qed.

(** C5, as the code has it. On a series whose timestamps do not decrease
    and whose samples all have a date that [datetime.date] holds, with a
    reducer that accepts every non-empty list, at a moment when the host's
    local date is the UTC date and that date is before 9999-12-31: no day is
    emitted twice; every day up to the current UTC date on which the series
    has samples is emitted with the reducer applied to the list of all the
    values of that day's samples, in series order; and no day after the
    current UTC date is emitted, so samples dated after it have no entry.
    With [min], the values 10, 3, 7 give 3. *)
Theorem interpolate_same_day_reduced func k raw :
  Sorted Z.le (pairs raw).*1 →
  Forall dated (decoded raw) →
  (∀ vs, vs ≠ [] → is_Some (func vs)) →
  date_today k = utc_date k →
  utc_date k < date_max →
  py_min [10; 3; 7] = Some 3 ∧
  ∃ results,
    interpolate raw func (date_today k) = Some results ∧
    NoDup results.*1 ∧
    (∀ d, d ≤ utc_date k → values_on d (decoded raw) ≠ [] →
       ∃ v, func (values_on d (decoded raw)) = Some v ∧ (d, v) ∈ results) ∧
    (∀ d v, (d, v) ∈ results → d ≤ utc_date k).
Proof.
  intros Hsorted Hdated Hfunc -> Hmax. split; [done|].
  apply Sorted_StronglySorted, ascending_decoded in Hsorted; [|apply _].
  fold (decoded raw) in Hsorted.
  unfold interpolate. rewrite formatted_zero.
  destruct (decoded raw) as [|[ts1 v1] it] eqn:Hraw.
  { exists []. split_and!; [done|constructor| |].
    - intros d _ Hne. by destruct Hne.
    - intros d v Hin. by apply elem_of_nil in Hin. }
  pose proof Hdated as [Hd1 Hit]%Forall_cons.
  pose proof (gmdate_dated_pair _ _ Hd1) as Hg. rewrite Hg.
  destruct (sweep_total func (utc_date k) Hfunc Hmax (day_of ts1) v1
              (Cursor (day_of ts1) v1 it) Hit) as [res Hres].
  pose proof (sweep_dates _ _ _ _ _ _ Hres) as Hdates.
  exists res. split_and!; [done| | |].
  - rewrite Hdates. apply NoDup_seqZ.
  - intros d Hd Hne.
    rewrite (sweep_daily func (utc_date k) _ _ _ ts1) in Hres by done.
    simpl in Hres.
    eapply daily_reduced; [exact Hres| |done].
    apply elem_of_seqZ. split; [|lia].
    destruct (values_on_inv _ _ Hne) as (s & Hs & Hsd).
    apply gmdate_Some in Hsd as [-> _].
    apply elem_of_cons in Hs as [->|Hs]; [done|].
    apply StronglySorted_cons in Hsorted as [Hhead _].
    by apply (proj1 (Forall_forall _ _) Hhead s Hs).
  - intros d v Hin.
    assert (d ∈ res.*1) as Hd
      by (apply list_elem_of_fmap; by exists (d, v)).
    rewrite Hdates in Hd. apply elem_of_seqZ in Hd. lia.
Qed.

Lemma py_min_total vs : vs ≠ [] → is_Some (py_min vs).
Proof. destruct vs; [done|]. by eexists. Qed.

Ltac all_dated := repeat (constructor; [eexists; reflexivity|]); constructor.

Lemma interpolate_days_witness :
  ∃ results,
    interpolate [0; 100; 1440; 50] py_min (date_today (Clock 1294099200 0))
      = Some results ∧
    results.*1 = seqZ 14975 4 ∧
    Z.of_nat (length results) = 4.
Proof.
  refine (proj2 (interpolate_days py_min (Clock 1294099200 0) 0 100 [1440; 50]
                   py_min_total _ eq_refl eq_refl)).
  all_dated.
Defined.

(** C4 as stated fails, also where the host's local date is the UTC date
    (here 2026-11-04, day 20761): on a series whose first sample is dated
    more than a day after it (a sample of 2030) nothing is emitted, while
    [(today - first).days + 1] is negative; and on a series whose first
    sample is dated beyond the year 9999, [gmdate] raises and nothing is
    returned. *)
Lemma interpolate_future_sample :
  date_today (Clock 1793750400 0) = 20761 ∧
  utc_date (Clock 1793750400 0) = 20761 ∧
  gmdate (decode 10000000) = Some 21919 ∧
  interpolate [10000000; 5] py_min (date_today (Clock 1793750400 0)) = Some [] ∧
  Z.of_nat (length (@nil (Z * Z))) ≠ 20761 - 21919 + 1 ∧
  interpolate [1000000000000; 5] py_min (date_today (Clock 1793750400 0)) = None.
Proof.
  split_and!; [reflexivity..| |done|reflexivity].
  rewrite interpolate_sweep. change (gmdate (decode 10000000)) with (Some 21919).
  by apply sweep_done.
Qed.

(** The last day emitted is the host's local date: on a host eight hours
    behind UTC, at 01:00 UTC of day 20761, the output ends with day 20760. *)
Example interpolate_local_date_lags :
  utc_date (Clock 1793754000 (-28800)) = 20761 ∧
  date_today (Clock 1793754000 (-28800)) = 20760 ∧
  interpolate [8330400; 5] py_min (date_today (Clock 1793754000 (-28800)))
    = Some [(20760, 5)].
Proof. split_and!; reflexivity. Qed.


Example interpolate_gap :
  interpolate [0; 100; 4320; 50] py_min 14979
    = Some [(14975, 100); (14976, 100); (14977, 100); (14978, 50); (14979, 50)].
Proof. reflexivity. Qed.

Lemma interpolate_same_day_reduced_witness :
  py_min [10; 3; 7] = Some 3 ∧
  ∃ results,
    interpolate [0; 10; 5; 3; 7; 7; 1440; 50] py_min (date_today (Clock 1293926400 0))
      = Some results ∧
    NoDup results.*1 ∧
    (∀ d, d ≤ utc_date (Clock 1293926400 0) →
       values_on d (decoded [0; 10; 5; 3; 7; 7; 1440; 50]) ≠ [] →
       ∃ v, py_min (values_on d (decoded [0; 10; 5; 3; 7; 7; 1440; 50])) = Some v ∧
            (d, v) ∈ results) ∧
    (∀ d v, (d, v) ∈ results → d ≤ utc_date (Clock 1293926400 0)).
Proof.
  apply (interpolate_same_day_reduced py_min (Clock 1293926400 0)
           [0; 10; 5; 3; 7; 7; 1440; 50]).
  - repeat constructor; discriminate.
  - all_dated.
  - exact py_min_total.
  - reflexivity.
  - reflexivity.
Defined.

Example interpolate_three_samples_one_day :
  values_on 14975 (decoded [0; 10; 5; 3; 7; 7; 1440; 50]) = [10; 3; 7] ∧
  interpolate [0; 10; 5; 3; 7; 7; 1440; 50] py_min 14976
    = Some [(14975, 3); (14976, 50)].
Proof. split; reflexivity. Qed.

(** C5 as stated fails for samples dated after the current date, also where
    the host's local date is the UTC date: the three samples of one day of
    2030 have no entry in the output on 2026-11-04; the series is in order
    and its first sample is of the day before. *)
Lemma interpolate_future_day_not_emitted :
  date_today (Clock 1793750400 0) = 20761 ∧
  utc_date (Clock 1793750400 0) = 20761 ∧
  Sorted Z.le (pairs [8330400; 5; 10000000; 10; 10000001; 3; 10000002; 7]).*1 ∧
  values_on 21919 (decoded [8330400; 5; 10000000; 10; 10000001; 3; 10000002; 7])
    = [10; 3; 7] ∧
  interpolate [8330400; 5; 10000000; 10; 10000001; 3; 10000002; 7] py_min
      (date_today (Clock 1793750400 0))
    = Some [(20760, 5); (20761, 5)] ∧
  ¬ ∃ v, (21919, v) ∈ [(20760, 5); (20761, 5)].
Proof.
  split_and!;
    [reflexivity|reflexivity|repeat constructor; discriminate
    |reflexivity|reflexivity|].
  intros [v Hv]. rewrite !elem_of_cons, elem_of_nil in Hv.
  destruct Hv as [[=]|[[=]|[]]].
Qed.

(** * Further properties of [formatted] and [gmdate] *)

Section FormattedMore.

Implicit Types (raw ts : list Z) (m t v : Z) (i j k n : nat).

Lemma enumerate_scan_lower m ts n i :
  (Nat.min i n ≤ enumerate_scan m ts n i)%nat.
Proof.
  revert n i. induction ts as [|t ts IH]; intros n i; simpl; [lia|].
  case_bool_decide; [lia|]. pose proof (IH (S n) n). lia.
Qed.

Lemma enumerate_scan_mono m m' ts : ∀ n i i',
  m ≤ m' → (i ≤ i')%nat →
  (enumerate_scan m ts n i ≤ enumerate_scan m' ts n i')%nat.
Proof.
  induction ts as [|t ts IH]; intros n i i' Hm Hi; simpl; [done|].
  repeat case_bool_decide; try lia.
  - pose proof (enumerate_scan_lower m' ts (S n) n). lia.
  - by apply IH.
Qed.

Lemma first_above_lt m ts j : first_above m ts = Some j → (j < length ts)%nat.
Proof.
  intros [[t [Hj _]] _]%first_above_Some_inv. by eapply lookup_lt_Some.
Qed.

Lemma enumerate_scan_upper m ts :
  (enumerate_scan m ts 0 0 ≤ length ts - 1)%nat.
Proof.
  rewrite enumerate_scan_spec. destruct (first_above m ts) as [j|] eqn:Hfa.
  - apply first_above_lt in Hfa. lia.
  - destruct ts; simpl; lia.
Qed.

Lemma suffix_drop_le {A : Type} (l : list A) a b :
  (b ≤ a)%nat → drop a l `suffix_of` drop b l.
Proof.
  intros Hle. replace a with (b + (a - b))%nat by lia.
  rewrite <- drop_drop. apply suffix_drop.
Qed.

(** Whatever the cut-off, the last two pairs of an even-length series (all
    of it, if it has fewer) are kept. *)
Theorem formatted_keeps_last_two raw m :
  Nat.Even (length raw) →
  drop (length (decoded raw) - 2) (decoded raw) `suffix_of` formatted raw m.
Proof.
  intros Hev. destruct (decide (m = 0)) as [->|Hm].
  { rewrite formatted_zero. apply suffix_drop. }
  rewrite formatted_drop by done. apply suffix_drop_le.
  pose proof (enumerate_scan_upper m (decode <$> stride2 raw)) as Hup.
  rewrite slice_timestamps, length_fmap in Hup by done.
  rewrite slice_timestamps by done. lia.
Qed.

Lemma formatted_keeps_last_two_witness :
  [(1293840060, 20); (1293840120, 30)]
    `suffix_of` formatted [0; 10; 1; 20; 2; 30] 999999999999.
Proof.
  exact (formatted_keeps_last_two [0; 10; 1; 20; 2; 30] 999999999999
           (ex_intro _ 3%nat eq_refl)).
Defined.

(** A later nonzero cut-off only removes more from the front: its result
    is a suffix of the result for any earlier cut-off. *)
Theorem formatted_cutoff_monotone raw m m' :
  m ≤ m' → m' ≠ 0 → formatted raw m' `suffix_of` formatted raw m.
Proof.
  intros Hle Hm'. rewrite (formatted_drop raw m') by done.
  destruct (decide (m = 0)) as [->|Hm].
  { rewrite formatted_zero. apply suffix_drop. }
  rewrite (formatted_drop raw m) by done. apply suffix_drop_le.
  pose proof (enumerate_scan_mono m m' (decode <$> stride2 raw) 0 0 0 Hle).
  lia.
Qed.

Lemma formatted_cutoff_monotone_witness :
  formatted [0; 10; 1; 20; 2; 30] 1293840060
    `suffix_of` formatted [0; 10; 1; 20; 2; 30] 1293840000.
Proof.
  apply formatted_cutoff_monotone; [discriminate|discriminate].
Defined.

(** With a nonzero cut-off, every pair that is left out has a timestamp at
    or below the cut-off. *)
Theorem formatted_drops_only_old raw m :
  Nat.Even (length raw) → m ≠ 0 →
  ∃ pre, decoded raw = pre ++ formatted raw m ∧ Forall (λ p, p.1 ≤ m) pre.
Proof.
  intros Hev Hm. rewrite formatted_drop, slice_timestamps by done.
  set (s := (enumerate_scan m (decoded raw).*1 0 0 - 1)%nat).
  exists (take s (decoded raw)). split; [by rewrite take_drop|].
  apply Forall_lookup. intros k [t v] Hk. simpl.
  apply lookup_take_Some in Hk as [Hk Hlt].
  apply lookup_timestamps in Hk. subst s.
  rewrite enumerate_scan_spec in Hlt.
  destruct (first_above m _) as [j|] eqn:Hfa.
  - apply first_above_Some_inv in Hfa as [_ Hbelow].
    apply (Hbelow k); [lia|done].
  - by eapply first_above_None_inv.
Qed.

Lemma formatted_drops_only_old_witness :
  ∃ pre, decoded [0; 10; 1; 20; 2; 30] = pre ++ formatted [0; 10; 1; 20; 2; 30] 1293840070
         ∧ Forall (λ p, p.1 ≤ 1293840070) pre.
Proof.
  exact (formatted_drops_only_old [0; 10; 1; 20; 2; 30] 1293840070
           (ex_intro _ 3%nat eq_refl) ltac:(discriminate)).
Defined.

(** When the decoded series splits into pairs at or before a nonzero
    cut-off followed by at least one pair after it, the result is the last
    pair at or before the cut-off, if there is one, and all pairs after it. *)
Theorem formatted_partition raw m before after :
  Nat.Even (length raw) → m ≠ 0 →
  decoded raw = before ++ after →
  Forall (λ p, p.1 ≤ m) before →
  Forall (λ p, m < p.1) after →
  after ≠ [] →
  formatted raw m = drop (length before - 1) before ++ after.
Proof.
  intros Hev Hm Hsplit Hbefore Hafter Hne.
  destruct after as [|[t v] after]; [done|]. apply Forall_cons in Hafter as [Ht _].
  rewrite formatted_drop, slice_timestamps, enumerate_scan_spec by done.
  rewrite (first_above_is_Some m _ (length before) t).
  - rewrite Hsplit. rewrite Nat.add_0_l, drop_app_le by lia. done.
  - apply (lookup_timestamps _ _ _ v). rewrite Hsplit.
    by rewrite lookup_app_r, Nat.sub_diag by lia.
  - done.
  - intros i t' Hi [v' Hlook]%lookup_timestamps_inv.
    rewrite Hsplit, lookup_app_l in Hlook by done.
    by apply (Forall_lookup_1 _ _ _ _ Hbefore Hlook).
Qed.

Lemma formatted_partition_witness :
  formatted [0; 10; 1; 20; 2; 30; 3; 40] 1293840070
    = [(1293840060, 20); (1293840120, 30); (1293840180, 40)].
Proof.
  apply (formatted_partition [0; 10; 1; 20; 2; 30; 3; 40] 1293840070
           [(1293840000, 10); (1293840060, 20)]
           [(1293840120, 30); (1293840180, 40)]).
  - by exists 4%nat.
  - discriminate.
  - reflexivity.
  - repeat constructor; discriminate.
  - repeat constructor.
  - discriminate.
Defined.

(** The UTC day of a decoded timestamp is day 14975 (2011-01-01) plus the
    whole days in the raw minutes: raw time 0 is midnight UTC of that day and
    the day changes at every multiple of 1440 raw minutes. [gmdate] returns
    that day when it lies from 0001-01-01 (day -719162) to 9999-12-31 (day
    2932896), and raises otherwise. *)
Theorem gmdate_decode t :
  gmdate (decode t) =
    if bool_decide (-719162 ≤ 14975 + t `div` 1440 ≤ 2932896)
    then Some (14975 + t `div` 1440) else None.
Proof.
  assert (day_of (decode t) = 14975 + t `div` 1440) as Hday.
  { unfold day_of, decode.
    change 86400 with (1440 * 60). rewrite Z.div_mul_cancel_r by done.
    replace (t + 21564000) with (t + 14975 * 1440) by lia.
    rewrite Z.div_add by done. lia. }
  unfold gmdate. rewrite Hday. done.
Qed.

End FormattedMore.
(** * Further properties of [interpolate] *)

Section InterpolateMore.

Implicit Types (func f g : reducer) (today d v : Z) (c : cursor)
  (res it ext samples : list (Z * Z)) (raw extra : list Z).

Lemma day_step_agree f g d v c :
  (∀ vs, vs ≠ [] → f vs = g vs) → day_step f d v c = day_step g d v c.
Proof.
  intros Hfg. unfold day_step. case_bool_decide; [|done].
  destruct (gather d [value2 c] c (data c)) as [[vs c']|] eqn:Hg; [|done].
  rewrite (Hfg vs); [done|]. by eapply gather_nonempty.
Qed.

Lemma sweep_agree f g today d :
  (∀ vs, vs ≠ [] → f vs = g vs) →
  ∀ v c, sweep f today d v c [] = sweep g today d v c [].
Proof.
  intros Hfg. induction d as [d IH] using (days_ind today). intros v c.
  destruct (decide (d ≤ today)) as [Hle|Hgt]; [|by rewrite !sweep_done by lia].
  rewrite !sweep_cons by done. rewrite (day_step_agree f g) by done.
  destruct (day_step g d v c) as [[v' c']|]; [|done].
  destruct (decide (d + 1 ≤ date_max)); [|done]. by rewrite IH.
Qed.

(** The reducer is never applied to an empty list: two reducers that agree
    on the non-empty lists give the same result, also where that is an
    exception. *)
Theorem interpolate_reducer_nonempty raw f g today :
  (∀ vs, vs ≠ [] → f vs = g vs) →
  interpolate raw f today = interpolate raw g today.
Proof.
  intros Hfg. unfold interpolate.
  destruct (formatted raw 0) as [|[ts1 v1] it]; [done|].
  destruct (gmdate ts1); [|done]. by apply sweep_agree.
Qed.

Lemma sweep_prefix func today today' d :
  today ≤ today' →
  ∀ v c res',
    sweep func today' d v c [] = Some res' →
    ∃ res, sweep func today d v c [] = Some res ∧ res `prefix_of` res'.
Proof.
  intros Hle. induction d as [d IH] using (days_ind today). intros v c res'.
  destruct (decide (d ≤ today)) as [Hd|Hd].
  - rewrite !sweep_cons by lia.
    destruct (day_step func d v c) as [[v' c']|]; [|done].
    destruct (decide (d + 1 ≤ date_max)); [|done].
    destruct (sweep func today' (d + 1) v' c' []) as [rest'|] eqn:Hrest'; [|done].
    intros [= <-]. destruct (IH Hd v' c' rest' Hrest') as (rest & -> & Hpre).
    eexists. split; [done|]. by apply prefix_cons.
  - intros _. exists []. split; [by apply sweep_done; lia|apply prefix_nil].
Qed.

(** Entries are never revised as days pass: what [interpolate] returns for
    an earlier [today] is a prefix of what it returns for a later one. *)
Theorem interpolate_prefix_stable raw func today today' res' :
  today ≤ today' →
  interpolate raw func today' = Some res' →
  ∃ res, interpolate raw func today = Some res ∧ res `prefix_of` res'.
Proof.
  intros Hle. unfold interpolate.
  destruct (formatted raw 0) as [|[ts1 v1] it].
  - intros [= <-]. by exists [].
  - destruct (gmdate ts1); [|done]. by apply sweep_prefix.
Qed.

Lemma sweep_values func today (V : list Z) d :
  (∀ vs v, func vs = Some v → v ∈ vs) →
  ∀ v c res,
    v ∈ V → value2 c ∈ V → (∀ x, x ∈ (data c).*2 → x ∈ V) →
    sweep func today d v c [] = Some res →
    ∀ p, p ∈ res → p.2 ∈ V.
Proof.
  intros Hsel. induction d as [d IH] using (days_ind today).
  intros v c res Hv Hv2 Hdata.
  destruct (decide (d ≤ today)) as [Hle|Hgt].
  2:{ rewrite sweep_done by lia. intros [= <-] p Hp. by apply elem_of_nil in Hp. }
  rewrite sweep_cons by done. unfold day_step.
  destruct (decide (d + 1 ≤ date_max)); [|by repeat case_match].
  case_bool_decide.
  - destruct (gather d [value2 c] c (data c)) as [[vs c']|] eqn:Hg; [|done].
    destruct (gather_split _ _ _ _ _ _ Hg) as (pre & post & Hit & _ & Hvals & _).
    destruct (gather_cursor _ _ _ _ _ _ Hg) as [Hcur Hsuf].
    destruct (func vs) as [v'|] eqn:Hf; [|done].
    destruct (sweep func today (d + 1) v' c' []) as [res'|] eqn:Hrest; [|done].
    intros [= <-] p Hp.
    assert (v' ∈ V) as Hv'.
    { apply Hsel in Hf. rewrite Hvals in Hf.
      apply elem_of_cons in Hf as [->|Hf]; [done|]. apply Hdata.
      rewrite Hit, fmap_app. apply elem_of_app. by left. }
    apply elem_of_cons in Hp as [->|Hp]; [done|].
    apply (IH Hle v' c' res'); [done| | |done..].
    + destruct Hcur as [->|Hcur]; [done|by apply Hdata].
    + intros x Hx. apply Hdata. destruct Hsuf as [k ->].
      rewrite fmap_app. apply elem_of_app. by right.
  - destruct (sweep func today (d + 1) v c []) as [res'|] eqn:Hrest; [|done].
    intros [= <-] p Hp. apply elem_of_cons in Hp as [->|Hp]; [done|].
    by apply (IH Hle v c res').
Qed.

(** With a reducer that picks one of the values it is given (as [min] and
    [max] do), every emitted value is a value of the raw series. *)
Theorem interpolate_values_from_series raw func today res :
  (∀ vs v, func vs = Some v → v ∈ vs) →
  interpolate raw func today = Some res →
  ∀ p, p ∈ res → p.2 ∈ (pairs raw).*2.
Proof.
  intros Hsel. unfold interpolate. rewrite formatted_zero.
  assert ((pairs raw).*2 = (decoded raw).*2) as ->.
  { unfold decoded. rewrite <- list_fmap_compose. done. }
  destruct (decoded raw) as [|[ts1 v1] it].
  { intros [= <-] p Hp. by apply elem_of_nil in Hp. }
  destruct (gmdate ts1) as [d1|]; [|done].
  intros Hres. eapply sweep_values; [done| | | |exact Hres]; simpl.
  - by left.
  - by left.
  - intros x Hx. by right.
Qed.

Lemma foldl_min_elem vs : ∀ v, foldl Z.min v vs ∈ v :: vs.
Proof.
  induction vs as [|x vs IH]; intros v; simpl; [by left|].
  pose proof (IH (Z.min v x)) as Hin.
  apply elem_of_cons in Hin as [->|Hin]; [|by do 2 right].
  destruct (Z.min_spec v x) as [[_ ->]|[_ ->]]; [by left|right; by left].
Qed.

Lemma py_min_elem vs v : py_min vs = Some v → v ∈ vs.
Proof. destruct vs as [|x vs]; [done|]. intros [= <-]. apply foldl_min_elem. Qed.

(** Two cursors whose dates are not among the days left give the same
    sweep. *)
Lemma sweep_inert_eq func today d : ∀ v c c',
  date2 c < d ∨ today < date2 c →
  date2 c' < d ∨ today < date2 c' →
  sweep func today d v c [] = sweep func today d v c' [].
Proof.
  induction d as [d IH] using (days_ind today). intros v c c' Hc Hc'.
  destruct (decide (d ≤ today)) as [Hle|Hgt]; [|by rewrite !sweep_done by lia].
  rewrite !sweep_cons by done. unfold day_step.
  rewrite !bool_decide_eq_false_2 by lia.
  destruct (decide (d + 1 ≤ date_max)); [|done].
  by rewrite (IH Hle v c c') by lia.
Qed.

Lemma gather_same_cursor d vals c c' it :
  date2 c = date2 c' → value2 c = value2 c' →
  gather d vals c it = gather d vals c' it.
Proof. intros Hd Hv. destruct it as [|[ts v2] it]; simpl; by rewrite ?Hd, ?Hv. Qed.

Lemma gather_app d ext :
  (∀ p, head ext = Some p → ∃ de, gmdate p.1 = Some de ∧ de ≠ d) →
  ∀ it vals c, date2 c = d →
    match gather d vals c it with
    | None => gather d vals c (it ++ ext) = None
    | Some (vs, c1) =>
        ∃ c2, gather d vals c (it ++ ext) = Some (vs, c2) ∧
          (c2 = Cursor (date2 c1) (value2 c1) (data c1 ++ ext)
           ∨ (date2 c1 = d ∧
              ∃ p ext' de, ext = p :: ext' ∧ gmdate p.1 = Some de ∧ de ≠ d ∧
                c2 = Cursor de p.2 ext'))
    end.
Proof.
  intros Hext. induction it as [|[ts v2] it IH]; intros vals c Hc.
  - destruct ext as [|[ts v2] ext']; simpl.
    + eexists. split; [done|]. by left.
    + destruct (Hext (ts, v2) eq_refl) as (de & Hde & Hne). simpl in Hde.
      rewrite Hde. rewrite bool_decide_eq_false_2 by (intros ?; by apply Hne).
      eexists. split; [done|]. right. split; [done|].
      by exists (ts, v2), ext', de.
  - cbn [app gather]. destruct (gmdate ts) as [d2|]; [|done].
    case_bool_decide as Hd.
    + rewrite (gather_same_cursor d _ (Cursor d2 v2 (it ++ ext)) (Cursor d2 v2 it))
        by done.
      apply IH. simpl. congruence.
    + eexists. split; [done|]. by left.
Qed.

Lemma sweep_app_future func today ext d :
  (∀ p, head ext = Some p → ∃ de, gmdate p.1 = Some de ∧ today < de) →
  ∀ v d2 v2 it,
    sweep func today d v (Cursor d2 v2 (it ++ ext)) [] =
    sweep func today d v (Cursor d2 v2 it) [].
Proof.
  intros Hext. induction d as [d IH] using (days_ind today). intros v d2 v2 it.
  destruct (decide (d ≤ today)) as [Hle|Hgt]; [|by rewrite !sweep_done by lia].
  rewrite !sweep_cons by done. unfold day_step. simpl.
  case_bool_decide as Hd.
  2:{ destruct (decide (d + 1 ≤ date_max)); [|done]. by rewrite IH. }
  rewrite (gather_same_cursor d [v2] (Cursor d2 v2 (it ++ ext)) (Cursor d2 v2 it))
    by done.
  assert (∀ p, head ext = Some p → ∃ de, gmdate p.1 = Some de ∧ de ≠ d)
    as Hext'.
  { intros p Hp. destruct (Hext p Hp) as (de & Hde & Hlt).
    exists de. split; [done|lia]. }
  pose proof (gather_app d ext Hext' it [v2] (Cursor d2 v2 it) (eq_sym Hd))
    as Happ.
  destruct (gather d [v2] (Cursor d2 v2 it) it) as [[vs [d1 w1 it1]]|].
  2:{ by rewrite Happ. }
  destruct Happ as (c2 & -> & Hcur). simpl in Hcur.
  destruct (func vs) as [v'|]; [|done].
  destruct (decide (d + 1 ≤ date_max)); [|done]. f_equal.
  destruct Hcur as [->|(-> & p & ext' & de & -> & Hde & _ & ->)]; [by apply IH|].
  apply sweep_inert_eq; simpl.
  - right. destruct (Hext p eq_refl) as (de' & Hde' & ?). congruence.
  - left. lia.
Qed.

Lemma pairs_app raw extra :
  Nat.Even (length raw) → pairs (raw ++ extra) = pairs raw ++ pairs extra.
Proof.
  induction raw as [| t | t v raw IH] using list_ind2; intros Hev; [done| |].
  - destruct Hev as [[|?] ?]; simpl in *; lia.
  - cbn [app pairs]. rewrite IH; [done|]. by apply Nat.Even_succ_succ.
Qed.

(** Samples appended to an even-length series change nothing when the
    first of them has a date and is dated after [today]: they are never
    read into a day. *)
Theorem interpolate_future_ignored raw extra func today :
  Nat.Even (length raw) →
  (∀ t v rest, extra = t :: v :: rest →
     ∃ d, gmdate (decode t) = Some d ∧ today < d) →
  interpolate (raw ++ extra) func today = interpolate raw func today.
Proof.
  intros Hev Hextra. unfold interpolate. rewrite !formatted_zero.
  unfold decoded. rewrite pairs_app, fmap_app by done.
  fold (decoded raw). fold (decoded extra).
  assert (∀ p, head (decoded extra) = Some p →
            ∃ de, gmdate p.1 = Some de ∧ today < de) as Hhead.
  { destruct extra as [|t [|v rest]]; [done..|]. intros p [= <-].
    by apply (Hextra t v rest). }
  destruct (decoded raw) as [|[ts1 v1] it]; simpl.
  - destruct (decoded extra) as [|[ts v] ext]; [done|].
    destruct (Hhead (ts, v) eq_refl) as (de & Hde & Hlt). simpl in Hde.
    rewrite Hde. by apply sweep_done.
  - destruct (gmdate ts1); [|done]. by apply sweep_app_future.
Qed.

End InterpolateMore.

Lemma interpolate_reducer_nonempty_witness :
  interpolate [0; 10; 5; 3; 1440; 50] py_min 14977
    = interpolate [0; 10; 5; 3; 1440; 50]
        (λ vs, match vs with [] => Some 0 | _ => py_min vs end) 14977.
Proof.
  apply interpolate_reducer_nonempty. intros [|x vs] Hne; [done|reflexivity].
Defined.

Lemma interpolate_prefix_stable_witness :
  ∃ res, interpolate [0; 10; 5; 3; 1440; 50] py_min 14975 = Some res ∧
         res `prefix_of` [(14975, 3); (14976, 50); (14977, 50)].
Proof.
  apply (interpolate_prefix_stable [0; 10; 5; 3; 1440; 50] py_min 14975 14977);
    [discriminate|reflexivity].
Defined.

Lemma interpolate_values_from_series_witness :
  Forall (λ p, p.2 ∈ (pairs [0; 10; 5; 3; 1440; 50]).*2)
         [(14975, 3); (14976, 50); (14977, 50)].
Proof.
  apply Forall_forall.
  apply (interpolate_values_from_series [0; 10; 5; 3; 1440; 50] py_min 14977);
    [exact py_min_elem|reflexivity].
Defined.

Lemma interpolate_future_ignored_witness :
  interpolate ([0; 10; 1440; 50] ++ [10000000; 7; 10000001; 9]) py_min 14977
    = interpolate [0; 10; 1440; 50] py_min 14977.
Proof.
  apply interpolate_future_ignored; [by exists 2%nat|].
  intros t v rest [= <- _ _]. exists 21919. split; reflexivity.
Defined.

(** * Further properties of [request] and of the call builders *)

Section TransportMore.

Variables (path : string) (query : list (string * string)).

Implicit Types (net pre rest : list reply) (counter c : Z) (r : reply)
  (tr : list effect) (o : outcome).

Lemma request_loop_step c r net :
  request_loop path query c (r :: net) =
    match verdict_of c r with
    | Stop o => ([Get path query], o)
    | Retry secs c' =>
        after [Get path query; Sleep secs] (request_loop path query c' net)
    end.
Proof.
  destruct r as [|st|st data]; cbn [request_loop verdict_of];
    repeat first [case_bool_decide | case_match]; done.
Qed.

Lemma refill_delay_error data e :
  refill_delay data = inl e →
  e = TypeError ∨ e = OverflowError ∨ ∃ k, e = KeyError k.
Proof.
  unfold refill_delay, getitem.
  destruct data as [| | | | |members]; try (intros [= <-]; by left).
  destruct (assoc "refillIn" members) as [x|];
    [|intros [= <-]; right; right; by eexists].
  destruct x; cbn [ceil_milli]; try (intros [= <-]; by left).
  - destruct (assoc "tokensLeft" members);
      [done|intros [= <-]; right; right; by eexists].
  - case_bool_decide; [intros [= <-]; right; by left|].
    destruct (assoc "tokensLeft" members);
      [done|intros [= <-]; right; right; by eexists].
Qed.

Lemma sleep_error_cases secs e :
  sleep_error secs = Some e → e = OverflowError ∨ e = ValueError.
Proof.
  unfold sleep_error. repeat case_bool_decide; intros [= <-]; auto.
Qed.

Lemma sleep_error_None secs : sleep_error secs = None → 0 ≤ secs.
Proof. unfold sleep_error. repeat case_bool_decide; [done..|lia]. Qed.

Lemma verdict_stop c r o : verdict_of c r = Stop o → o ≠ Waiting.
Proof.
  destruct r; cbn [verdict_of];
    repeat first [case_bool_decide | case_match]; by intros [= <-].
Qed.

Lemma verdict_retry c r secs c' :
  verdict_of c r = Retry secs c' →
  0 ≤ secs ∧ retriable r ∧ (1 ≤ c ≤ 3 → 1 ≤ c' ≤ 3).
Proof.
  destruct r as [|st|st data]; cbn [verdict_of retriable].
  - case_bool_decide; [done|]. intros [= <- <-]. split_and!; [done..|lia].
  - case_bool_decide; [done|]. intros [= <- <-]. split_and!; [done..|lia].
  - case_bool_decide; [done|]. destruct (STATUS_CODES !! st); [|done].
    case_bool_decide; [|done]. destruct (refill_delay data) as [e|delay]; [done|].
    destruct (sleep_error delay) as [e|] eqn:Hsleep; [done|].
    intros [= <- <-]. split_and!; [by apply sleep_error_None|done|lia].
Qed.

Lemma verdict_returned c r data :
  verdict_of c r = Stop (Returned data) → r = Answer 200 data.
Proof.
  destruct r; cbn [verdict_of];
    repeat first [case_bool_decide | case_match]; intros [= <-]; by subst.
Qed.

Lemma verdict_transient c r :
  transient r = true → 1 ≤ c ≤ 3 →
  verdict_of c r = (if bool_decide (c = 1) then Stop (Raised (caught r))
                    else Retry 30 (c - 1)).
Proof.
  intros Hr Hc. destruct r; [| |done]; cbn [verdict_of];
    repeat case_bool_decide; try done; lia.
Qed.

Lemma verdict_decisive c status data :
  status ≠ 429 → ∃ o, verdict_of c (Answer status data) = Stop o.
Proof.
  intros H429. cbn [verdict_of].
  repeat first [case_bool_decide | case_match]; try done; by eexists.
Qed.

(** Once the outcome is settled, what the network would have sent next is
    never asked for. *)
Lemma request_loop_decided pre : ∀ c rest,
  (request_loop path query c pre).2 ≠ Waiting →
  request_loop path query c (pre ++ rest) = request_loop path query c pre.
Proof.
  induction pre as [|r pre IH]; intros c rest Hdec; [done|].
  cbn [app]. rewrite !request_loop_step in *.
  destruct (verdict_of c r) as [o|secs c']; [done|].
  unfold after in *. simpl in *. by rewrite IH.
Qed.

Lemma request_returned_inv net tr data :
  request path query net = (tr, Returned data) →
  ∃ pre post,
    net = pre ++ Answer 200 data :: post ∧
    Forall retriable pre ∧
    gets tr = S (length pre).
Proof.
  unfold request. generalize 3. revert tr.
  induction net as [|r net IH]; intros tr c; [done|].
  rewrite request_loop_step.
  destruct (verdict_of c r) as [o|secs c'] eqn:Hv.
  - intros [= <- ->]. apply verdict_returned in Hv as ->.
    exists [], net. by split_and!.
  - destruct (request_loop path query c' net) as [tr' o'] eqn:Hrest.
    unfold after. simpl. intros [= <- ->].
    destruct (IH tr' c' Hrest) as (pre & post & -> & Hpre & Hgets).
    exists (r :: pre), post. split_and!; [done| |].
    + constructor; [|done]. by eapply verdict_retry.
    + simpl. by rewrite Hgets.
Qed.

(** When [request] returns, it returns the body of the first 200 response:
    every reply before it was a transient failure or a 429, and there was
    one get per reply up to and including it. *)
Theorem request_returns_first_200 net tr data :
  request path query net = (tr, Returned data) →
  ∃ pre post,
    net = pre ++ Answer 200 data :: post ∧
    Forall retriable pre ∧
    gets tr = S (length pre).
Proof. apply request_returned_inv. Qed.

Lemma request_events net :
  Forall (λ e, e = Get path query ∨ ∃ secs, e = Sleep secs ∧ 0 ≤ secs)
         (request path query net).1 ∧
  (gets (request path query net).1 ≤ length net)%nat.
Proof.
  unfold request. generalize 3.
  induction net as [|r net IH]; intros c; [by split|].
  rewrite request_loop_step.
  destruct (verdict_of c r) as [o|secs c'] eqn:Hv.
  - split; [repeat constructor; by left|]. simpl. lia.
  - destruct (IH c') as [Hall Hgets]. unfold after. simpl. split.
    + constructor; [by left|]. constructor; [|done]. right. exists secs.
      split; [done|]. by eapply verdict_retry.
    + simpl. lia.
Qed.

(** Every get of one request goes to the same URL, no sleep is negative,
    and there is at most one get per reply. *)
Theorem request_trace_shape net :
  Forall (λ e, e = Get path query ∨ ∃ secs, e = Sleep secs ∧ 0 ≤ secs)
         (request path query net).1 ∧
  (gets (request path query net).1 ≤ length net)%nat.
Proof. apply request_events. Qed.

Lemma after_snd tr (x : list effect * outcome) : (after tr x).2 = x.2.
Proof. done. Qed.

Lemma three_failures_decide f1 f2 f3 : ∀ pre c,
  transient f1 = true → transient f2 = true → transient f3 = true →
  1 ≤ c ≤ 3 →
  (request_loop path query c (pre ++ [f1; f2; f3])).2 ≠ Waiting.
Proof.
  intros pre c H1 H2 H3. revert c. induction pre as [|r pre IH]; intros c Hc.
  - cbn [app]. rewrite request_loop_step, verdict_transient by done.
    case_bool_decide; [done|].
    rewrite after_snd. rewrite request_loop_step, verdict_transient by (done || lia).
    case_bool_decide; [done|].
    rewrite after_snd. rewrite request_loop_step, verdict_transient by (done || lia).
    case_bool_decide; [done|lia].
  - cbn [app]. rewrite request_loop_step.
    destruct (verdict_of c r) as [o|secs c'] eqn:Hv; [by eapply verdict_stop|].
    rewrite after_snd. apply IH. by eapply verdict_retry.
Qed.

(** Three transient failures in a row end the request wherever they occur
    in it: what follows them is never asked for. *)
Theorem request_three_failures_anywhere pre f1 f2 f3 rest :
  transient f1 = true → transient f2 = true → transient f3 = true →
  request path query (pre ++ f1 :: f2 :: f3 :: rest)
    = request path query (pre ++ [f1; f2; f3]) ∧
  (request path query (pre ++ [f1; f2; f3])).2 ≠ Waiting.
Proof.
  intros H1 H2 H3.
  assert ((request path query (pre ++ [f1; f2; f3])).2 ≠ Waiting) as Hdec
    by (apply three_failures_decide; [done..|lia]).
  split; [|done].
  change (f1 :: f2 :: f3 :: rest) with ([f1; f2; f3] ++ rest).
  rewrite app_assoc. by apply request_loop_decided.
Qed.

Lemma decisive_decides status data : ∀ pre c,
  status ≠ 429 →
  (request_loop path query c (pre ++ [Answer status data])).2 ≠ Waiting.
Proof.
  intros pre c H429. revert c. induction pre as [|r pre IH]; intros c.
  - cbn [app]. rewrite request_loop_step.
    destruct (verdict_decisive c status data H429) as [o Ho]. rewrite Ho.
    by eapply verdict_stop.
  - cbn [app]. rewrite request_loop_step.
    destruct (verdict_of c r) as [o|secs c'] eqn:Hv; [by eapply verdict_stop|].
    rewrite after_snd. apply IH.
Qed.

(** A decoded response with a status other than 429 ends the request at the
    latest when it arrives: the request returns or raises, and what follows
    that response is never asked for. *)
Theorem request_ends_at_decisive_reply pre status data rest :
  status ≠ 429 →
  request path query (pre ++ Answer status data :: rest)
    = request path query (pre ++ [Answer status data]) ∧
  (request path query (pre ++ [Answer status data])).2 ≠ Waiting.
Proof.
  intros H429.
  assert ((request path query (pre ++ [Answer status data])).2 ≠ Waiting) as Hdec
    by by apply decisive_decides.
  split; [|done].
  change (Answer status data :: rest) with ([Answer status data] ++ rest).
  rewrite app_assoc. by apply request_loop_decided.
Qed.

Lemma verdict_no_assertion c r msg :
  verdict_of c r ≠ Stop (Raised (AssertionError msg)).
Proof.
  destruct r as [|st|st data]; cbn [verdict_of caught].
  - by case_bool_decide.
  - by case_bool_decide.
  - case_bool_decide; [done|]. destruct (STATUS_CODES !! st); [|done].
    case_bool_decide; [|done].
    destruct (refill_delay data) as [e|delay] eqn:Hdelay.
    + intros Heq. injection Heq as ->.
      by destruct (refill_delay_error _ _ Hdelay) as [?|[?|[? ?]]].
    + destruct (sleep_error delay) as [e|] eqn:Hsleep; [|done].
      intros Heq. injection Heq as ->.
      by destruct (sleep_error_cases _ _ Hsleep).
Qed.

(** [request] never raises [AssertionError]. *)
Lemma request_no_assertion net tr msg :
  request path query net ≠ (tr, Raised (AssertionError msg)).
Proof.
  unfold request. generalize 3. revert tr.
  induction net as [|r net IH]; intros tr c; [done|].
  rewrite request_loop_step.
  destruct (verdict_of c r) as [o|secs c'] eqn:Hv.
  - intros [= <- ->]. by eapply verdict_no_assertion.
  - destruct (request_loop path query c' net) as [tr' o'] eqn:Hrest.
    unfold after. simpl. intros [= <- ->]. by eapply IH.
Qed.

End TransportMore.

Lemma request_returns_first_200_witness :
  ∃ pre post,
    [Refused; Answer 200 (JInt 7); Answer 200 JNull]
      = pre ++ Answer 200 (JInt 7) :: post ∧
    Forall retriable pre ∧
    gets [Get "/token" token_query; Sleep 30; Get "/token" token_query]
      = S (length pre).
Proof.
  exact (request_returns_first_200 "/token" token_query
           [Refused; Answer 200 (JInt 7); Answer 200 JNull] _ _ eq_refl).
Defined.

Lemma request_three_failures_anywhere_witness :
  request "/token" token_query
    ([Refused; Answer 429 (JObject [("refillIn"%string, JInt 1); ("tokensLeft"%string, JInt 0)])]
       ++ Refused :: Garbled 200 :: Refused :: [Answer 200 JNull])
  = request "/token" token_query
      ([Refused; Answer 429 (JObject [("refillIn"%string, JInt 1); ("tokensLeft"%string, JInt 0)])]
         ++ [Refused; Garbled 200; Refused]).
Proof.
  exact (proj1 (request_three_failures_anywhere "/token" token_query _
                  Refused (Garbled 200) Refused [Answer 200 JNull]
                  eq_refl eq_refl eq_refl)).
Defined.

Lemma request_ends_at_decisive_reply_witness :
  request "/token" token_query ([Refused] ++ Answer 500 JNull :: [Answer 200 JNull])
  = request "/token" token_query ([Refused] ++ [Answer 500 JNull]).
Proof.
  exact (proj1 (request_ends_at_decisive_reply "/token" token_query [Refused]
                  500 JNull [Answer 200 JNull] ltac:(discriminate))).
Defined.

Section BuildersMore.

Variable self : KeepaAPI.

Implicit Types (net : list reply) (s : string).

Lemma split_comma_nonempty s : split_comma s ≠ [].
Proof. destruct s as [|a s]; simpl; [done|]. case_bool_decide; [done|]. by case_match. Qed.

(** [','.join(s.split(','))] gives [s] back. *)
Lemma join_split_comma s : String.concat "," (split_comma s) = s.
Proof.
  induction s as [|a s IH]; [done|]. cbn [split_comma].
  pose proof (split_comma_nonempty s) as Hne.
  destruct (split_comma s) as [|h t] eqn:Hsplit; [done|].
  case_bool_decide as Ha.
  - subst a. rewrite <- IH. reflexivity.
  - rewrite <- IH. by destruct t.
Qed.

(** A category string of at most ten characters reaches the network
    unchanged, split and joined again, whatever it holds. *)
Theorem categories_str_verbatim s parents domain_arg net :
  (String.length s ≤ 10)%nat →
  categories self (CatStr s) parents domain_arg net =
    request "/category/"
      ([ ("key", key self);
         ("domain", pretty (domain_or domain_arg self));
         ("category", s) ]%string
       ++ if bool_decide (parents ≠ 0) then [("parents"%string, pretty parents)] else [])
      net.
Proof.
  intros Hlen. unfold categories, cat_ids.
  rewrite bool_decide_eq_true_2 by done. rewrite join_split_comma.
  by case_bool_decide; rewrite ?app_nil_r.
Qed.

(** An [AssertionError] out of [categories] or [products] is always raised
    before any network call: the transport never raises one. *)
Theorem assertion_before_network tr msg :
  (∀ category parents domain_arg net,
     categories self category parents domain_arg net
       = (tr, Raised (AssertionError msg)) → tr = []) ∧
  (∀ asins stats update history offers rating domain_arg net,
     products self asins stats update history offers rating domain_arg net
       = (tr, Raised (AssertionError msg)) → tr = []).
Proof.
  split.
  - intros category parents domain_arg net. unfold categories.
    destruct (cat_ids category) as [e|ids]; [by intros [= <- _]|].
    intros H. by apply request_no_assertion in H.
  - intros asins stats update history offers rating domain_arg net.
    unfold products.
    repeat first [case_bool_decide | case_match]; intros Hrun;
      first [by apply request_no_assertion in Hrun | by inversion Hrun].
Qed.

Lemma request_keyed path dom q net :
  Forall (keyed self dom)
    (request path (("key", key self) :: ("domain", pretty dom) :: q)%string net).1.
Proof.
  eapply Forall_impl; [apply request_events|]. simpl.
  intros e [->|(secs & -> & _)]; simpl; [by eexists|done].
Qed.

(** Every get issued by [best_sellers], [categories], [products] and
    [sellers], retries included, carries the access key and the locale as its
    first two query parameters; the locale is the [domain] argument, or the
    client's default when that is [None] or 0. *)
Theorem builders_send_key_and_domain domain_arg net :
  (∀ category,
     Forall (keyed self (domain_or domain_arg self))
       (best_sellers self category domain_arg net).1) ∧
  (∀ category parents,
     Forall (keyed self (domain_or domain_arg self))
       (categories self category parents domain_arg net).1) ∧
  (∀ asins stats update history offers rating,
     Forall (keyed self (domain_or domain_arg self))
       (products self asins stats update history offers rating domain_arg net).1) ∧
  (∀ seller_ids storefront update,
     Forall (keyed self (domain_or domain_arg self))
       (sellers self seller_ids storefront update domain_arg net).1).
Proof.
  split_and!.
  - intros category. apply request_keyed.
  - intros category parents. unfold categories.
    destruct (cat_ids category); [constructor|].
    case_bool_decide; cbn [app]; apply request_keyed.
  - intros asins stats update history offers rating. unfold products.
    repeat first [case_bool_decide | case_match]; cbn [app];
      first [apply request_keyed | constructor].
  - intros seller_ids storefront update. unfold sellers.
    repeat first [case_bool_decide | case_match]; cbn [app];
      first [apply request_keyed | constructor].
Qed.

(** [tokens_left] only ever returns an integer, and it is what [int] makes
    of the [tokensLeft] member of the first 200 response, all replies before
    which were transient failures or rate-limit responses. *)
Theorem tokens_left_returns parse net tr x :
  tokens_left parse self net = (tr, Returned x) →
  ∃ n pre body post left,
    x = JInt n ∧
    net = pre ++ Answer 200 body :: post ∧
    Forall retriable pre ∧
    getitem body "tokensLeft" = inr left ∧
    py_int parse left = inr n.
Proof.
  unfold tokens_left, token_status.
  destruct (request "/token" [("key"%string, key self)] net) as [tr0 o] eqn:Hreq.
  destruct o as [body| |]; [|done..].
  destruct (getitem body "tokensLeft") as [e|left] eqn:Hget; [done|].
  destruct (py_int parse left) as [e|n] eqn:Hint; [done|].
  intros [= <- <-].
  destruct (request_returned_inv _ _ _ _ _ Hreq) as (pre & post & -> & Hpre & _).
  by exists n, pre, body, post, left.
Qed.

End BuildersMore.

Lemma categories_str_verbatim_witness :
  categories {| key := "k"; domain := 1 |} (CatStr "12,34,,5") 0 None [Answer 200 JNull]
  = request "/category/"
      ([ ("key", "k"); ("domain", "1"); ("category", "12,34,,5") ]%string ++ [])
      [Answer 200 JNull].
Proof.
  exact (categories_str_verbatim {| key := "k"; domain := 1 |} "12,34,,5" 0 None
           [Answer 200 JNull] ltac:(simpl; lia)).
Defined.

Lemma assertion_before_network_witness :
  @nil effect = [].
Proof.
  exact (proj1 (assertion_before_network {| key := "k"; domain := 1 |} []
                  "Error: More then 10 category ids.")
           (CatStr "100,200,300") 0 None [Answer 200 JNull] eq_refl).
Defined.

Lemma tokens_left_returns_witness :
  ∃ n pre body post left,
    JInt 42 = JInt n ∧
    [Refused; Answer 200 (JObject [("tokensLeft"%string, JInt 42)])]
      = pre ++ Answer 200 body :: post ∧
    Forall retriable pre ∧
    getitem body "tokensLeft" = inr left ∧
    py_int (λ _, None) left = inr n.
Proof.
  exact (tokens_left_returns {| key := "k"; domain := 1 |} (λ _, None)
           [Refused; Answer 200 (JObject [("tokensLeft"%string, JInt 42)])]
           _ _ eq_refl).
Defined.

(** * [interpolate] on ordered and on out-of-order series *)

Lemma interpolate_daily_witness :
  interpolate [0; 10; 5; 3; 1440; 50] py_min 14977
    = daily py_min (decoded [0; 10; 5; 3; 1440; 50]) 10 (seqZ 14975 3).
Proof.
  apply (interpolate_daily py_min 14977 0 10 [5; 3; 1440; 50]).
  - repeat constructor; discriminate.
  - all_dated.
  - reflexivity.
Defined.

(** A second sample dated before the first one (both with a date that
    [datetime.date] holds) stops the reading of the series: with [today]
    before 9999-12-31, every day from the first sample's day through [today]
    gets the reducer's value for the first sample alone, and nothing after
    the second sample is read. *)
Theorem interpolate_out_of_order_stops func today t1 v1 t2 v2 rest w d1 d2 :
  gmdate (decode t1) = Some d1 →
  gmdate (decode t2) = Some d2 →
  d2 < d1 →
  today < date_max →
  func [v1] = Some w →
  interpolate (t1 :: v1 :: t2 :: v2 :: rest) func today
    = Some ((λ d, (d, w)) <$> seqZ d1 (today + 1 - d1)).
Proof.
  intros Hd1 Hd2 Hback Hmax Hfunc. rewrite interpolate_sweep, Hd1.
  destruct (decide (d1 ≤ today)) as [Hle|Hgt];
    [|by rewrite sweep_done, seqZ_nil by lia].
  rewrite sweep_cons, seqZ_days by done. unfold day_step. cbn [date2].
  rewrite bool_decide_eq_true_2 by done.
  cbn [data value2]. change (decoded (t2 :: v2 :: rest))
    with ((decode t2, v2) :: decoded rest).
  cbn [gather]. rewrite Hd2. rewrite bool_decide_eq_false_2 by lia.
  rewrite Hfunc. destruct (decide (d1 + 1 ≤ date_max)); [|lia].
  rewrite sweep_inert by (done || simpl; lia). done.
Qed.

Lemma interpolate_out_of_order_stops_witness :
  interpolate [1440; 10; 0; 3; 1441; 1; 2880; 0] py_min 14978
    = Some ((λ d, (d, 10)) <$> seqZ 14976 3).
Proof.
  apply (interpolate_out_of_order_stops py_min 14978 1440 10 0 3
           [1441; 1; 2880; 0] 10 14976 14975);
    reflexivity.
Defined.
